(** * pRRT: a parallel Rapidly-exploring Random Tree planner

    Shallow embedding of [ompl/kinematic/planners/rrt/src/pRRT.cpp]
    ([pRRT::threadSolve], [pRRT::solve], [pRRT::getStates]).

    Modelling conventions.
    - A C++ [double] is an IEEE 754 binary64 value ([spec_float] with 53
      bits of precision): zeros, infinities, NaN and finite numbers.  Each
      arithmetic operation rounds its result to nearest, ties to even (no
      extended precision, no fused multiply-add), and a comparison with NaN
      is false.  The clock and the time budget are not [double]s: they are
      exact rationals.
    - A [Motion*] is the index of the node in the append-only sequence of
      nodes held by the nearest-neighbour structure [m_nn]; [NULL] is [None].
    - The worker threads run under an interleaving semantics: one [Tick] of
      the schedule lets one thread execute one statement of [threadSolve].
      What a statement reads from the outside world (the clock, the random
      number generator, the samplers) is carried by the [Tick].
    - The collaborators that are pure functions of their arguments
      (the space information, the goal, the nearest-neighbour query) are
      parameters of the development. *)

From Stdlib Require Import ZArith QArith Qabs Qpower Lqa SpecFloat.
From stdpp Require Import base option list strings.

(** ** The type [double] *)

Definition double := spec_float.

(** The format binary64. *)
Definition prec : Z := 53.
Definition emax : Z := 1024.

Definition dadd : double -> double -> double := SFadd prec emax.
Definition dsub : double -> double -> double := SFsub prec emax.
Definition dmul : double -> double -> double := SFmul prec emax.
Definition ddiv : double -> double -> double := SFdiv prec emax.

(** [fabs(x)] *)
Definition dabs : double -> double := SFabs.

(** [x < y] *)
Definition dlt : double -> double -> bool := SFltb.

(** [0.0] and [std::numeric_limits<double>::infinity()] *)
Definition dzero : double := S754_zero false.
Definition dinf : double := S754_infinity false.

(** The double nearest to [m * 2^e]. *)
Definition dbl (m e : Z) : double := binary_normalize prec emax m e false.


(** The number that a finite double stands for. *)
Definition d2Q (x : double) : Q :=
  match x with
  | S754_finite s m e => inject_Z (cond_Zopp s (Zpos m)) * (2 # 1) ^ e
  | _ => 0
  end.


(** ** Data model *)

(** [base::State]: the vector [values] of a configuration. *)
Definition State := list double.

(** [s->values[i]] *)
Definition value (s : State) (i : nat) : double := nth i s dzero.

Record StateComponent := {
  minValue : double;
  maxValue : double
}.

(** [Motion]: a state and a parent reference. *)
Record Motion := {
  state : State;
  parent : option nat
}.

(** Comparison of two readings of the clock. *)
Definition Qltb (x y : Q) : bool := (Qnum x * QDen y <? Qnum y * QDen x)%Z.

(** Order on the values of [approxdif]: [a] is below [b], and [a] is [b] or
    below [b]. *)
Definition elt (a b : double) : Prop := dlt a b = true.

Definition ele (a b : double) : Prop := a = b \/ elt a b.

(** [SolutionInfo], shared by the workers of one [solve] call.  [lock] holds
    the identity of the thread that owns the mutex. *)
Record SolutionInfo := {
  solution : option nat;
  approxsol : option nat;
  approxdif : double;
  lock : option nat
}.

(** The collaborators, as [threadSolve] and [solve] use them. *)
Record SpaceInformationKinematic := {
  getStateDimension : nat;
  getStateComponent : nat -> StateComponent;
  satisfiesBounds : State -> bool;
  isValid : State -> bool;
  checkMotion : State -> State -> bool
}.

(** A goal region: [isSatisfied] returns the verdict and the distance it
    writes through its second argument; [sampleable] tells whether the
    [dynamic_cast] to [GoalSampleableRegion] succeeds. *)
Record GoalRegion := {
  isSatisfied : State -> bool * double;
  sampleable : bool
}.

Record ProblemDefinition := {
  getGoal : option GoalRegion;
  startStates : list State
}.

Definition getStartStateCount (pdef : ProblemDefinition) : nat :=
  length (startStates pdef).

Definition getStartState (pdef : ProblemDefinition) (i : nat) : State :=
  nth i (startStates pdef) [].

(** What [solve] does to the outside world, in order. *)
Inductive Event :=
| MsgError (text : string)
| MsgInform (text : string) (arg : nat)
| MsgWarn (text : string)
| TimeNow
| ThreadStart (tid : nat)
| ThreadJoin (tid : nat)
| SetDifference (d : double)
| SetSolutionPath (path : list State) (approximate : bool).

(** The planner object: the fields of [pRRT] that the three functions use,
    and the log of its effects. *)
Record pRRT := {
  m_nn : list Motion;
  m_nnLock : option nat;
  m_addedStartStates : nat;
  m_threadCount : nat;
  events : list Event
}.

Definition set_nn (p : pRRT) (nn : list Motion) : pRRT :=
  {| m_nn := nn; m_nnLock := m_nnLock p;
     m_addedStartStates := m_addedStartStates p;
     m_threadCount := m_threadCount p; events := events p |}.

Definition set_nnLock (p : pRRT) (l : option nat) : pRRT :=
  {| m_nn := m_nn p; m_nnLock := l;
     m_addedStartStates := m_addedStartStates p;
     m_threadCount := m_threadCount p; events := events p |}.

Definition incr_addedStartStates (p : pRRT) : pRRT :=
  {| m_nn := m_nn p; m_nnLock := m_nnLock p;
     m_addedStartStates := S (m_addedStartStates p);
     m_threadCount := m_threadCount p; events := events p |}.

Definition emit (p : pRRT) (evs : list Event) : pRRT :=
  {| m_nn := m_nn p; m_nnLock := m_nnLock p;
     m_addedStartStates := m_addedStartStates p;
     m_threadCount := m_threadCount p; events := events p ++ evs |}.

Definition set_solution (s : SolutionInfo) (m : option nat) : SolutionInfo :=
  {| solution := m; approxsol := approxsol s;
     approxdif := approxdif s; lock := lock s |}.

Definition set_approxsol (s : SolutionInfo) (m : option nat) : SolutionInfo :=
  {| solution := solution s; approxsol := m;
     approxdif := approxdif s; lock := lock s |}.

Definition set_approxdif (s : SolutionInfo) (d : double) : SolutionInfo :=
  {| solution := solution s; approxsol := approxsol s;
     approxdif := d; lock := lock s |}.

Definition set_lock (s : SolutionInfo) (l : option nat) : SolutionInfo :=
  {| solution := solution s; approxsol := approxsol s;
     approxdif := approxdif s; lock := l |}.

(** ** The worker: [pRRT::threadSolve] *)

(** The statement a worker executes next. *)
Inductive Pc :=
| LoopHead       (* while (sol->solution == NULL && time::now() < endTime) *)
| SampleState    (* sample random state (with goal biasing) *)
| NearestLock    (* m_nnLock.lock() *)
| NearestQuery   (* nmotion = m_nn.nearest(rmotion) *)
| NearestUnlock  (* m_nnLock.unlock() *)
| SteerState     (* find state to add *)
| CheckMotion    (* if (si->checkMotion(nmotion->state, xstate)) *)
| AddLock        (* m_nnLock.lock() *)
| AddMotion      (* m_nn.add(motion) *)
| AddUnlock      (* m_nnLock.unlock() *)
| GoalTest       (* solved = goal->isSatisfied(motion->state, &dist) *)
| ExactLock      (* sol->lock.lock() *)
| ExactSetDif    (* sol->approxdif = dist *)
| ExactSetSol    (* sol->solution = motion *)
| ExactUnlock    (* sol->lock.unlock(); break *)
| ApproxTest     (* if (dist < sol->approxdif) *)
| ApproxLock     (* sol->lock.lock() *)
| ApproxRetest   (* if (dist < sol->approxdif) *)
| ApproxSetDif   (* sol->approxdif = dist *)
| ApproxSetSol   (* sol->approxsol = motion *)
| ApproxUnlock   (* sol->lock.unlock() *)
| Returned.

Global Instance Pc_eq_dec : EqDecision Pc.
Proof. solve_decision. Defined.

(** The local variables of one [threadSolve] activation. *)
Record Worker := {
  pc : Pc;
  range : list double;
  rstate : State;
  nmotion : nat;
  xstate : State;
  motion : nat;
  dist : double;
  solved : bool
}.

Definition goto (w : Worker) (p : Pc) : Worker :=
  {| pc := p; range := range w; rstate := rstate w; nmotion := nmotion w;
     xstate := xstate w; motion := motion w; dist := dist w;
     solved := solved w |}.

Definition set_rstate (w : Worker) (s : State) : Worker :=
  {| pc := pc w; range := range w; rstate := s; nmotion := nmotion w;
     xstate := xstate w; motion := motion w; dist := dist w;
     solved := solved w |}.

Definition set_nmotion (w : Worker) (n : nat) : Worker :=
  {| pc := pc w; range := range w; rstate := rstate w; nmotion := n;
     xstate := xstate w; motion := motion w; dist := dist w;
     solved := solved w |}.

Definition set_xstate (w : Worker) (s : State) : Worker :=
  {| pc := pc w; range := range w; rstate := rstate w; nmotion := nmotion w;
     xstate := s; motion := motion w; dist := dist w; solved := solved w |}.

Definition set_motion (w : Worker) (m : nat) : Worker :=
  {| pc := pc w; range := range w; rstate := rstate w; nmotion := nmotion w;
     xstate := xstate w; motion := m; dist := dist w; solved := solved w |}.

Definition set_verdict (w : Worker) (r : bool * double) : Worker :=
  {| pc := pc w; range := range w; rstate := rstate w; nmotion := nmotion w;
     xstate := xstate w; motion := motion w; dist := r.2; solved := r.1 |}.

(** What one statement reads from the outside world: which thread runs,
    the clock, the random number and the two samplers' outputs. *)
Record Tick := {
  tid : nat;
  now : Q;
  uniform01 : double;
  sampleGoal : State;
  sample : State
}.

(** The state of a running [solve]: the planner object, the solution record
    on [solve]'s stack, and the workers. *)
Record World := {
  self : pRRT;
  sol : SolutionInfo;
  workers : list Worker
}.

Section Planner.

Variable si : SpaceInformationKinematic.
Variable m_pdef : ProblemDefinition.
Variable m_rho : double.
Variable m_goalBias : double.

(** [m_nn.nearest(rmotion)]: the index of the node the query returns. *)
Variable nearest : list Motion -> State -> nat.

Definition dim : nat := getStateDimension si.

(** [si->copyState(dst, src)] copies the values. *)
Definition copyState (src : State) : State := src.

(** [new Motion(dim)] and [new base::State(dim)]: a buffer of [dim] values
    and no parent. *)
Definition new_State : State := replicate dim dzero.

(** [range[i] = m_rho * (maxValue - minValue)] of component [i]. *)
Definition range_at (i : nat) : double :=
  dmul m_rho (dsub (maxValue (getStateComponent si i))
                   (minValue (getStateComponent si i))).

Definition compute_range : list double := range_at <$> seq 0 dim.

(** The body of the loop "find state to add": the value written to
    [xstate->values[i]]. *)
Definition steer_value (rng : list double) (r n : State) (i : nat)
  : double :=
  let diff := dsub (value r i) (value n i) in
  if dlt (dabs diff) (nth i rng dzero)
  then value r i
  else dadd (value n i) (dmul diff m_rho).

Definition steer (rng : list double) (r n : State) : State :=
  steer_value rng r n <$> seq 0 dim.

Definition new_Worker : Worker :=
  {| pc := LoopHead; range := compute_range; rstate := new_State;
     nmotion := 0; xstate := new_State; motion := 0; dist := dzero;
     solved := false |}.

(** One statement of [threadSolve], run by thread [tid t] on the planner
    [p] and the solution record [s].  [None]: the statement cannot execute
    (the mutex is taken, the thread has returned, or a reference does not
    designate a node). *)
Definition threadSolve_step (goal : GoalRegion) (endTime : Q) (t : Tick)
    (p : pRRT) (s : SolutionInfo) (w : Worker)
  : option (pRRT * SolutionInfo * Worker) :=
  match pc w with
  | LoopHead =>
      match solution s with
      | None =>
          if Qltb (now t) endTime
          then Some (p, s, goto w SampleState)
          else Some (p, s, goto w Returned)
      | Some _ => Some (p, s, goto w Returned)
      end
  | SampleState =>
      if sampleable goal && dlt (uniform01 t) m_goalBias
      then Some (p, s, goto (set_rstate w (sampleGoal t)) NearestLock)
      else Some (p, s, goto (set_rstate w (sample t)) NearestLock)
  | NearestLock =>
      match m_nnLock p with
      | None => Some (set_nnLock p (Some (tid t)), s, goto w NearestQuery)
      | Some _ => None
      end
  | NearestQuery =>
      Some (p, s, goto (set_nmotion w (nearest (m_nn p) (rstate w)))
                       NearestUnlock)
  | NearestUnlock => Some (set_nnLock p None, s, goto w SteerState)
  | SteerState =>
      match m_nn p !! nmotion w with
      | Some nm =>
          Some (p, s, goto (set_xstate w (steer (range w) (rstate w)
                                                (state nm)))
                           CheckMotion)
      | None => None
      end
  | CheckMotion =>
      match m_nn p !! nmotion w with
      | Some nm =>
          if checkMotion si (state nm) (xstate w)
          then Some (p, s, goto w AddLock)
          else Some (p, s, goto w LoopHead)
      | None => None
      end
  | AddLock =>
      match m_nnLock p with
      | None => Some (set_nnLock p (Some (tid t)), s, goto w AddMotion)
      | Some _ => None
      end
  | AddMotion =>
      let mo := {| state := copyState (xstate w);
                   parent := Some (nmotion w) |} in
      Some (set_nn p (m_nn p ++ [mo]), s,
            goto (set_motion w (length (m_nn p))) AddUnlock)
  | AddUnlock => Some (set_nnLock p None, s, goto w GoalTest)
  | GoalTest =>
      match m_nn p !! motion w with
      | Some mo =>
          let r := isSatisfied goal (state mo) in
          if r.1
          then Some (p, s, goto (set_verdict w r) ExactLock)
          else Some (p, s, goto (set_verdict w r) ApproxTest)
      | None => None
      end
  | ExactLock =>
      match lock s with
      | None => Some (p, set_lock s (Some (tid t)), goto w ExactSetDif)
      | Some _ => None
      end
  | ExactSetDif =>
      Some (p, set_approxdif s (dist w), goto w ExactSetSol)
  | ExactSetSol =>
      Some (p, set_solution s (Some (motion w)), goto w ExactUnlock)
  | ExactUnlock => Some (p, set_lock s None, goto w Returned)
  | ApproxTest =>
      if dlt (dist w) (approxdif s)
      then Some (p, s, goto w ApproxLock)
      else Some (p, s, goto w LoopHead)
  | ApproxLock =>
      match lock s with
      | None => Some (p, set_lock s (Some (tid t)), goto w ApproxRetest)
      | Some _ => None
      end
  | ApproxRetest =>
      if dlt (dist w) (approxdif s)
      then Some (p, s, goto w ApproxSetDif)
      else Some (p, s, goto w ApproxUnlock)
  | ApproxSetDif =>
      Some (p, set_approxdif s (dist w), goto w ApproxSetSol)
  | ApproxSetSol =>
      Some (p, set_approxsol s (Some (motion w)), goto w ApproxUnlock)
  | ApproxUnlock => Some (p, set_lock s None, goto w LoopHead)
  | Returned => None
  end.

(** One tick of the schedule. *)
Definition step (goal : GoalRegion) (endTime : Q) (t : Tick) (g : World)
  : option World :=
  match workers g !! tid t with
  | Some w =>
      match threadSolve_step goal endTime t (self g) (sol g) w with
      | Some (p', s', w') =>
          Some {| self := p'; sol := s';
                  workers := <[tid t := w']> (workers g) |}
      | None => None
      end
  | None => None
  end.

(** A schedule, tick after tick. *)
Fixpoint run (goal : GoalRegion) (endTime : Q) (sched : list Tick)
    (g : World) : option World :=
  match sched with
  | [] => Some g
  | t :: sched' =>
      match step goal endTime t g with
      | Some g' => run goal endTime sched' g'
      | None => None
      end
  end.

Definition has_returned (w : Worker) : bool := bool_decide (pc w = Returned).

(** ** The orchestrator: [pRRT::solve] *)

(** The body of the seeding loop, for start state [i = m_addedStartStates]. *)
Definition seed_one (p : pRRT) : pRRT :=
  let st := getStartState m_pdef (m_addedStartStates p) in
  incr_addedStartStates
    (if satisfiesBounds si st && isValid si st
     then set_nn p (m_nn p ++ [{| state := copyState st; parent := None |}])
     else emit p [MsgError "Initial state is invalid!"]).

(** [n] iterations of the seeding loop. *)
Fixpoint seed_loop (n : nat) (p : pRRT) : pRRT :=
  match n with
  | O => p
  | S n' => seed_loop n' (seed_one p)
  end.

(** The seeding loop, from [i = m_addedStartStates] while
    [i < getStartStateCount()]. *)
Definition seed (p : pRRT) : pRRT :=
  seed_loop (getStartStateCount m_pdef - m_addedStartStates p) p.

(** The start states that the seeding loop has still to look at. *)
Definition pending_starts (p : pRRT) : list State :=
  drop (m_addedStartStates p) (startStates m_pdef).

(** The two checks of the seeding loop. *)
Definition passes_checks (st : State) : bool :=
  satisfiesBounds si st && isValid si st.

(** The node the seeding loop makes of a start state. *)
Definition start_motion (st : State) : Motion :=
  {| state := copyState st; parent := None |}.

(** The loop that walks the parent references and fills [mpath]. [fuel]
    bounds the number of iterations. *)
Fixpoint walk (fuel : nat) (nn : list Motion) (cur : option nat)
  : option (list Motion) :=
  match cur with
  | None => Some []
  | Some m =>
      match fuel with
      | O => None
      | S fuel' =>
          match nn !! m with
          | Some mo =>
              match walk fuel' nn (parent mo) with
              | Some mpath => Some (mo :: mpath)
              | None => None
              end
          | None => None
          end
      end
  end.

(** The states of [mpath], from its last element to its first. *)
Definition path_of (mpath : list Motion) : list State :=
  (fun mo => copyState (state mo)) <$> reverse mpath.

(** Modelled from the spec: [Goal::isAchieved] (class [Goal] is not part of
    the sources).  True only when the path last handed to the goal was not
    approximate. *)
Fixpoint isAchieved_from (evs : list Event) (acc : bool) : bool :=
  match evs with
  | [] => acc
  | SetSolutionPath _ approximate :: evs' =>
      isAchieved_from evs' (negb approximate)
  | _ :: evs' => isAchieved_from evs' acc
  end.

Definition isAchieved (p : pRRT) : bool := isAchieved_from (events p) false.

Definition new_SolutionInfo : SolutionInfo :=
  {| solution := None; approxsol := None; approxdif := dinf;
     lock := None |}.

(** The world in which the workers start. *)
Definition launch (p : pRRT) : World :=
  {| self := emit p (ThreadStart <$> seq 0 (m_threadCount p));
     sol := new_SolutionInfo;
     workers := replicate (m_threadCount p) new_Worker |}.

(** The node that [sol.solution] designates once [solve] has fallen back on
    the approximate solution. *)
Definition final_solution (s : SolutionInfo) : option nat :=
  match solution s with
  | Some m => Some m
  | None => approxsol s
  end.

(** What [solve] does once every worker has been joined. *)
Definition resolve (g : World) : option pRRT :=
  let p := emit (self g) (ThreadJoin <$> seq 0 (m_threadCount (self g))) in
  let approximate := bool_decide (solution (sol g) = None) in
  let s := if approximate
           then set_solution (sol g) (approxsol (sol g))
           else sol g in
  match solution s with
  | Some _ =>
      match walk (length (m_nn p)) (m_nn p) (solution s) with
      | Some mpath =>
          let p := emit p [SetDifference (approxdif s);
                           SetSolutionPath (path_of mpath) approximate] in
          let p := if approximate
                   then emit p [MsgWarn "Found approximate solution"]
                   else p in
          Some (emit p [MsgInform "Created %u states" (length (m_nn p))])
      | None => None
      end
  | None =>
      Some (emit p [MsgInform "Created %u states" (length (m_nn p))])
  end.

(** [solve(solveTime)].  [now0] is the clock when the deadline is computed
    and [sched] the schedule under which the workers run; the result is
    [None] when [sched] is not a complete execution of the workers. *)
Definition solve (p : pRRT) (solveTime now0 : Q) (sched : list Tick)
  : option (pRRT * bool) :=
  match getGoal m_pdef with
  | None => Some (emit p [MsgError "Goal undefined"], false)
  | Some goal =>
      let endTime := (now0 + solveTime)%Q in
      let p := seed (emit p [TimeNow]) in
      if length (m_nn p) =? 0
      then Some (emit p [MsgError "There are no valid initial states!"],
                 false)
      else
        let p := emit p [MsgInform "Starting with %u states"
                                   (length (m_nn p))] in
        match run goal endTime sched (launch p) with
        | Some g =>
            if forallb has_returned (workers g)
            then
              match resolve g with
              | Some p' => Some (p', isAchieved p')
              | None => None
              end
            else None
        | None => None
        end
  end.

(** ** [pRRT::getStates] *)

(** [states.resize(n)] on a vector of state references. *)
Definition resize (states : list (option State)) (n : nat)
  : list (option State) :=
  take n states ++ replicate (n - length states) None.

(** The assignment loop [states[i] = motions[i]->state], for the [n]
    references of [motions] from index [i] on. *)
Fixpoint assign_states (motions : list Motion) (i : nat)
    (states : list (option State)) : list (option State) :=
  match motions with
  | [] => states
  | mo :: motions' =>
      assign_states motions' (S i) (<[i := Some (state mo)]> states)
  end.

(** [getStates(states)]: the planner is not changed ([const]); the result is
    the new content of the vector [states]. *)
Definition getStates (p : pRRT) (states : list (option State))
  : list (option State) :=
  let motions := m_nn p in
  assign_states motions 0 (resize states (length motions)).

(** The writes to [sol->approxdif] that an execution performs: by which
    thread, with which value, and by which of the two assignments. *)
Inductive DifWrite :=
| ExactWrite (i : nat) (d : double)
| ApproxWrite (i : nat) (d : double).

Definition written (wr : DifWrite) : double :=
  match wr with
  | ExactWrite _ d => d
  | ApproxWrite _ d => d
  end.

Definition is_exact (wr : DifWrite) : bool :=
  match wr with
  | ExactWrite _ _ => true
  | ApproxWrite _ _ => false
  end.

Definition dif_write (t : Tick) (g : World) : option DifWrite :=
  match workers g !! tid t with
  | Some w =>
      match pc w with
      | ExactSetDif => Some (ExactWrite (tid t) (dist w))
      | ApproxSetDif => Some (ApproxWrite (tid t) (dist w))
      | _ => None
      end
  | None => None
  end.

Fixpoint dif_writes (goal : GoalRegion) (endTime : Q) (sched : list Tick)
    (g : World) : list DifWrite :=
  match sched with
  | [] => []
  | t :: sched' =>
      match step goal endTime t g with
      | Some g' =>
          option_list (dif_write t g) ++ dif_writes goal endTime sched' g'
      | None => []
      end
  end.

(** The worlds that the workers launched on planner [p] can reach. *)
Definition reachable (goal : GoalRegion) (endTime : Q) (p : pRRT)
    (g : World) : Prop :=
  exists sched, run goal endTime sched (launch p) = Some g.

End Planner.

(** ** A concrete planning problem

    A one-dimensional space [[0, 16]] in which every state and every motion
    is valid, a linear-scan nearest-neighbour query, and goal regions around
    the configuration [4]. *)

Module Scenario.

Local Open Scope Q_scope.

Definition sqdist (a b : State) : double :=
  foldr (fun xy acc =>
           dadd (dmul (dsub xy.1 xy.2) (dsub xy.1 xy.2)) acc) dzero
        (zip a b).

Fixpoint nearest_from (nn : list Motion) (q : State) (i best : nat)
    (bestd : double) : nat :=
  match nn with
  | [] => best
  | mo :: nn' =>
      let d := sqdist (state mo) q in
      if dlt d bestd
      then nearest_from nn' q (S i) i d
      else nearest_from nn' q (S i) best bestd
  end.

Definition nearest (nn : list Motion) (q : State) : nat :=
  match nn with
  | [] => 0%nat
  | mo :: nn' => nearest_from nn' q 1%nat 0%nat (sqdist (state mo) q)
  end.

Definition in_bounds (s : State) : bool :=
  negb (dlt (value s 0) (dbl 0 0)) && negb (dlt (dbl 16 0) (value s 0)).

Definition si : SpaceInformationKinematic :=
  {| getStateDimension := 1%nat;
     getStateComponent :=
       fun _ => {| minValue := dbl 0 0; maxValue := dbl 16 0 |};
     satisfiesBounds := in_bounds;
     isValid := fun _ => true;
     checkMotion := fun _ _ => true |}.

Definition rho : double := dbl 1 (-1).
Definition goalBias : double := ddiv (dbl 1 0) (dbl 20 0).

(** The distance of a state to the configuration [4]. *)
Definition distanceGoal (s : State) : double :=
  dabs (dsub (value s 0) (dbl 4 0)).

(** A goal region with a threshold: satisfied when the distance to [4] is
    below [1]. *)
Definition ball : GoalRegion :=
  {| isSatisfied :=
       fun s => (dlt (distanceGoal s) (dbl 1 0), distanceGoal s);
     sampleable := false |}.

(** A goal region whose verdict is not a threshold on the distance it
    reports: satisfied at distance [3] or more. *)
Definition shell : GoalRegion :=
  {| isSatisfied :=
       fun s => (negb (dlt (distanceGoal s) (dbl 3 0)), distanceGoal s);
     sampleable := false |}.

Definition pdef (goal : option GoalRegion) (starts : list State)
  : ProblemDefinition :=
  {| getGoal := goal; startStates := starts |}.

(** A planner that has not run yet, with [n] threads. *)
Definition fresh (n : nat) : pRRT :=
  {| m_nn := []; m_nnLock := None; m_addedStartStates := 0%nat;
     m_threadCount := n; events := [] |}.

(** Thread [i] runs one statement; the clock reads [0] and the sampler
    yields the state [[x]]. *)
Definition tick (i : nat) (x : double) : Tick :=
  {| tid := i; now := 0; uniform01 := dbl 1 (-1); sampleGoal := [dbl 4 0];
     sample := [x] |}.

(** Thread [i] runs one statement when the clock reads [c]. *)
Definition tick_at (i : nat) (c : Q) : Tick :=
  {| tid := i; now := c; uniform01 := dbl 1 (-1); sampleGoal := [dbl 4 0];
     sample := [dbl 0 0] |}.

(** A problem with the single start state [0]. *)
Definition problem (goal : GoalRegion) : ProblemDefinition :=
  pdef (Some goal) [[dbl 0 0]].

(** The planner on which [solve] launches its [n] workers. *)
Definition seeded (goal : GoalRegion) (n : nat) : pRRT :=
  let p1 := seed si (problem goal) (emit (fresh n) [TimeNow]) in
  emit p1 [MsgInform "Starting with %u states" (length (m_nn p1))].

Definition start (goal : GoalRegion) (n : nat) : World :=
  launch si rho (seeded goal n).

(** The world that the [n] workers reach under the schedule [sched], with
    the deadline [1]. *)
Definition world_after (goal : GoalRegion) (n : nat) (sched : list Tick)
  : World :=
  default (start goal n)
          (run si rho goalBias nearest goal 1 sched (start goal n)).

Definition worker_of (g : World) (i : nat) : Worker :=
  default (new_Worker si rho) (workers g !! i).

(** One worker: the sampler yields [12] and the worker reaches the statement
    "find state to add". *)
Definition to_steer : list Tick := replicate 5%nat (tick 0 (dbl 12 0)).

(** One worker: an iteration that adds the node [6] and records it as
    approximate solution, then an iteration that adds the node [8]. *)
Definition approx_iteration : list Tick := replicate 17%nat (tick 0 (dbl 6 0)).
Definition exact_iteration : list Tick := replicate 15%nat (tick 0 (dbl 8 0)).

(** Two workers, goal [ball]: worker 1 adds the node [7/2] and evaluates
    the goal; worker 0 then runs a whole iteration that adds the node [4];
    worker 1 then takes the lock. *)
Definition race : list Tick :=
  replicate 11%nat (tick 1 (dbl 7 (-1))) ++ replicate 15%nat (tick 0 (dbl 4 0))
  ++ [tick 1 (dbl 0 0)].

(** Two workers, goal [ball]: worker 1 has evaluated the goal on its node
    when worker 0 takes the lock. *)
Definition contention : list Tick :=
  replicate 11%nat (tick 1 (dbl 7 (-1))) ++ replicate 12%nat (tick 0 (dbl 4 0)).

(** Two workers, goal [shell]: worker 1 adds the node [6] and evaluates the
    goal; worker 0 then runs a whole iteration that adds the node [8];
    worker 1 then completes its iteration and leaves the loop. *)
Definition overtaking : list Tick :=
  replicate 11%nat (tick 1 (dbl 6 0)) ++ replicate 15%nat (tick 0 (dbl 8 0))
  ++ replicate 7%nat (tick 1 (dbl 0 0)).

(** The planner that [solve] returns on the problem with goal [goal], for
    [n] workers under the schedule [sched], with clock [0] and budget [1]. *)
Definition outcome (goal : GoalRegion) (n : nat) (sched : list Tick)
  : pRRT :=
  default (fresh n)
          (fst <$> solve si (problem goal) rho goalBias nearest (fresh n)
                         1 0 sched).


(** The schedule [to_steer] followed by the statement "find state to
    add". *)
Definition to_check : list Tick := to_steer ++ [tick 0 (dbl 12 0)].

(** One worker, goal [shell]: the two iterations, and the first one followed
    by a loop head at the deadline. *)
Definition two_iterations : list Tick := approx_iteration ++ exact_iteration.
Definition one_iteration : list Tick := approx_iteration ++ [tick_at 0 1].


(** A space [[1, 2]] with [rho = 0.3], the double nearest to 3/10, and a
    worker that samples [2] on the tree of the start state [1]. *)
Definition narrow_bounds (s : State) : bool :=
  negb (dlt (value s 0) (dbl 1 0)) && negb (dlt (dbl 2 0) (value s 0)).

Definition narrow : SpaceInformationKinematic :=
  {| getStateDimension := 1%nat;
     getStateComponent :=
       fun _ => {| minValue := dbl 1 0; maxValue := dbl 2 0 |};
     satisfiesBounds := narrow_bounds;
     isValid := fun _ => true;
     checkMotion := fun _ _ => true |}.

Definition three_tenths : double := ddiv (dbl 3 0) (dbl 10 0).



(** The tick [t] with a random draw below the goal bias. *)
Definition biased (t : Tick) : Tick :=
  {| tid := tid t; now := now t; uniform01 := dzero;
     sampleGoal := sampleGoal t;
     sample := sample t |}.

End Scenario.

(** ** Invariants of the executions *)

(** The statements a worker executes while it owns [sol->lock]. *)
Definition holds_lock (p : Pc) : bool :=
  match p with
  | ExactSetDif | ExactSetSol | ExactUnlock
  | ApproxRetest | ApproxSetDif | ApproxSetSol | ApproxUnlock => true
  | _ => false
  end.

(** The place of a statement in the body of the loop. *)
Definition position (p : Pc) : nat :=
  match p with
  | LoopHead => 0
  | SampleState => 1
  | NearestLock => 2
  | NearestQuery => 3
  | NearestUnlock => 4
  | SteerState => 5
  | CheckMotion => 6
  | AddLock => 7
  | AddMotion => 8
  | AddUnlock => 9
  | GoalTest => 10
  | ExactLock => 11
  | ExactSetDif => 12
  | ExactSetSol => 13
  | ExactUnlock => 14
  | ApproxTest => 15
  | ApproxLock => 16
  | ApproxRetest => 17
  | ApproxSetDif => 18
  | ApproxSetSol => 19
  | ApproxUnlock => 20
  | Returned => 21
  end.

(** What the solution record and worker [i] know of each other. *)
Record sol_inv_at (rng : list double) (s : SolutionInfo) (i : nat) (w : Worker)
  : Prop := {
  inv_range : range w = rng;
  inv_owner : holds_lock (pc w) = true -> lock s = Some i;
  inv_retested : pc w = ApproxSetDif -> dlt (dist w) (approxdif s) = true;
  inv_written : pc w = ApproxSetSol \/ pc w = ExactSetSol ->
                approxdif s = dist w
}.

Definition sol_inv (rng : list double) (g : World) : Prop :=
  forall i w, workers g !! i = Some w -> sol_inv_at rng (sol g) i w.

(** The mutex [sol->lock] is owned by a worker that executes one of the
    statements between [lock()] and [unlock()]. *)
Definition lock_inv (g : World) : Prop :=
  forall i, lock (sol g) = Some i ->
    exists w, workers g !! i = Some w /\ holds_lock (pc w) = true.

(** Parent references designate older nodes. *)
Definition tree_ok (nn : list Motion) : Prop :=
  forall i mo j, nn !! i = Some mo -> parent mo = Some j -> j < i.

(** A node without parent holds a start state that passed both checks. *)
Definition roots_ok (si : SpaceInformationKinematic)
    (pdef : ProblemDefinition) (nn : list Motion) : Prop :=
  forall i mo, nn !! i = Some mo -> parent mo = None ->
    state mo ∈ startStates pdef /\
    satisfiesBounds si (state mo) && isValid si (state mo) = true.

Definition planner_ok (si : SpaceInformationKinematic)
    (pdef : ProblemDefinition) (p : pRRT) : Prop :=
  tree_ok (m_nn p) /\ roots_ok si pdef (m_nn p).

(** The statements at which [nmotion] has been dereferenced. *)
Definition steered (p : Pc) : bool :=
  match p with
  | CheckMotion | AddLock | AddMotion => true
  | _ => false
  end.

(** The statements at which [dist] and [solved] hold the goal's verdict on
    the node [motion]. *)
Definition tested (p : Pc) : bool :=
  match p with
  | ExactLock | ExactSetDif | ExactSetSol | ExactUnlock
  | ApproxTest | ApproxLock | ApproxRetest | ApproxSetDif | ApproxSetSol
  | ApproxUnlock => true
  | _ => false
  end.

(** The statements at which [motion] is in the tree. *)
Definition added (p : Pc) : bool :=
  match p with
  | AddUnlock | GoalTest => true
  | _ => tested p
  end.

(** The statements on the path of an exact solution. *)
Definition on_exact_path (p : Pc) : bool :=
  match p with
  | ExactLock | ExactSetDif | ExactSetSol | ExactUnlock => true
  | _ => false
  end.

(** What the tree and a worker know of each other. *)
Record refs_inv_at (goal : GoalRegion) (nn : list Motion) (w : Worker)
  : Prop := {
  inv_nmotion : steered (pc w) = true -> nmotion w < length nn;
  inv_motion : added (pc w) = true -> motion w < length nn;
  inv_verdict : tested (pc w) = true ->
    exists mo, nn !! motion w = Some mo /\
               isSatisfied goal (state mo) = (solved w, dist w);
  inv_solved : on_exact_path (pc w) = true -> solved w = true
}.

(** The invariant of the tree during the executions launched on [p0]. *)
Record tree_inv (si : SpaceInformationKinematic) (pdef : ProblemDefinition)
    (goal : GoalRegion) (p0 : pRRT) (g : World) : Prop := {
  inv_tree : tree_ok (m_nn (self g));
  inv_roots : roots_ok si pdef (m_nn (self g));
  inv_solution : forall m, solution (sol g) = Some m ->
                           m < length (m_nn (self g));
  inv_approxsol : forall m, approxsol (sol g) = Some m ->
                            m < length (m_nn (self g));
  inv_refs : forall i w, workers g !! i = Some w ->
                         refs_inv_at goal (m_nn (self g)) w;
  inv_events : events (self g) =
               events p0 ++ (ThreadStart <$> seq 0 (m_threadCount p0));
  inv_threadCount : m_threadCount (self g) = m_threadCount p0;
  inv_addedStartStates : m_addedStartStates (self g) = m_addedStartStates p0
}.

(** ** [pRRT::setThreadCount] *)

Definition set_threadCount (p : pRRT) (n : nat) : pRRT :=
  {| m_nn := m_nn p; m_nnLock := m_nnLock p;
     m_addedStartStates := m_addedStartStates p;
     m_threadCount := n; events := events p |}.

(** [setThreadCount(nthreads)], on the planner and on the vector
    [m_sCoreArray].  The type [Core] of the elements of the vector is not
    given by the sources: it is a parameter, with [blank] the element that
    [resize] puts in a new place.  [None]: the assertion [nthreads > 0]
    fails. *)
Definition setThreadCount {Core : Type} (blank : Core) (nthreads : nat)
    (p : pRRT) (m_sCoreArray : list Core) : option (pRRT * list Core) :=
  if 0 <? nthreads
  then Some (set_threadCount p nthreads,
             take nthreads m_sCoreArray
             ++ replicate (nthreads - length m_sCoreArray) blank)
  else None.

(** ** Further observations and invariants of the executions *)

Section Observations.

Variable si : SpaceInformationKinematic.
Variable m_rho : double.
Variable m_goalBias : double.
Variable nearest : list Motion -> State -> nat.

(** Whether the tick executes [m_nn.add(motion)]. *)
Definition is_add (t : Tick) (g : World) : bool :=
  match workers g !! tid t with
  | Some w => bool_decide (pc w = AddMotion)
  | None => false
  end.

(** The number of [m_nn.add(motion)] that an execution performs. *)
Fixpoint count_adds (goal : GoalRegion) (endTime : Q) (sched : list Tick)
    (g : World) : nat :=
  match sched with
  | [] => 0
  | t :: sched' =>
      match step si m_rho m_goalBias nearest goal endTime t g with
      | Some g' =>
          (if is_add t g then 1 else 0) + count_adds goal endTime sched' g'
      | None => 0
      end
  end.

End Observations.

(** The statements a worker executes while it owns [m_nnLock]. *)
Definition holds_nnLock (p : Pc) : bool :=
  match p with
  | NearestQuery | NearestUnlock | AddMotion | AddUnlock => true
  | _ => false
  end.

(** [m_nnLock] and its owner. *)
Record nn_inv (g : World) : Prop := {
  nn_owner : forall i w, workers g !! i = Some w ->
                         holds_nnLock (pc w) = true ->
                         m_nnLock (self g) = Some i;
  nn_owned : forall i, m_nnLock (self g) = Some i ->
                       exists w, workers g !! i = Some w /\
                                 holds_nnLock (pc w) = true
}.

(** Every node with a parent was reached from it by a motion that passed
    [checkMotion]. *)
Definition edges_ok (si : SpaceInformationKinematic) (nn : list Motion)
  : Prop :=
  forall i mo j, nn !! i = Some mo -> parent mo = Some j ->
    exists pm, nn !! j = Some pm /\
               checkMotion si (state pm) (state mo) = true.

(** The statements a worker executes after [checkMotion] has accepted the
    motion and before the node is in the tree. *)
Definition checked (p : Pc) : bool :=
  match p with
  | AddLock | AddMotion => true
  | _ => false
  end.

Record edge_inv (si : SpaceInformationKinematic) (g : World) : Prop := {
  edge_tree : edges_ok si (m_nn (self g));
  edge_checked : forall i w, workers g !! i = Some w ->
    checked (pc w) = true ->
    exists nm, m_nn (self g) !! nmotion w = Some nm /\
               checkMotion si (state nm) (xstate w) = true
}.

(** Consecutive states of a path pass [checkMotion]. *)
Definition chain_ok (si : SpaceInformationKinematic) (path : list State)
  : Prop :=
  forall k a b, path !! k = Some a -> path !! S k = Some b ->
                checkMotion si a b = true.

(** The statements of the approximate-solution update. *)
Definition on_approx_path (p : Pc) : bool :=
  match p with
  | ApproxTest | ApproxLock | ApproxRetest | ApproxSetDif | ApproxSetSol
  | ApproxUnlock => true
  | _ => false
  end.

(** What the solution record designates, in the executions launched on a
    tree of [n0] nodes. *)
Record incumbent_inv (goal : GoalRegion) (n0 : nat) (g : World) : Prop := {
  inc_size : n0 <= length (m_nn (self g));
  inc_motion : forall i w, workers g !! i = Some w ->
                           added (pc w) = true -> n0 <= motion w;
  inc_unsolved : forall i w, workers g !! i = Some w ->
                             on_approx_path (pc w) = true ->
                             solved w = false;
  inc_parent : forall k mo, n0 <= k -> m_nn (self g) !! k = Some mo ->
                            parent mo <> None;
  inc_solution : forall m, solution (sol g) = Some m ->
    n0 <= m /\
    exists mo, m_nn (self g) !! m = Some mo /\
               (isSatisfied goal (state mo)).1 = true;
  inc_approxsol : forall m, approxsol (sol g) = Some m ->
    n0 <= m /\
    exists mo, m_nn (self g) !! m = Some mo /\
               (isSatisfied goal (state mo)).1 = false
}.

(** The statements between the insertion of a node and the end of its
    comparison with the stored distance. *)
Definition in_flight (p : Pc) : bool :=
  match p with
  | AddUnlock | GoalTest | ExactLock | ExactSetDif
  | ApproxTest | ApproxLock | ApproxRetest | ApproxSetDif => true
  | _ => false
  end.

(** A worker has begun to record an exact solution. *)
Definition exact_begun (g : World) : Prop :=
  solution (sol g) <> None \/
  exists i w, workers g !! i = Some w /\ pc w = ExactSetSol.

(** Node [k] is still being handled by the worker that added it. *)
Definition pending (g : World) (k : nat) : Prop :=
  exists i w, workers g !! i = Some w /\ motion w = k /\
              in_flight (pc w) = true.

(** The node does not satisfy the goal and its distance is not below the
    stored distance. *)
Definition settled (goal : GoalRegion) (g : World) (mo : Motion) : Prop :=
  (isSatisfied goal (state mo)).1 = false /\
  dlt (isSatisfied goal (state mo)).2 (approxdif (sol g)) = false.

(** The stored distance is that of the stored approximate solution. *)
Definition approx_inv (goal : GoalRegion) (g : World) : Prop :=
  (exists i w, workers g !! i = Some w /\ pc w = ApproxSetSol) \/
  match approxsol (sol g) with
  | Some m => exists mo, m_nn (self g) !! m = Some mo /\
                approxdif (sol g) = (isSatisfied goal (state mo)).2
  | None => approxdif (sol g) = dinf
  end.

(** As long as no exact solution is being recorded, the stored distance is
    the least distance of the nodes the workers have added and compared. *)
Definition closest_inv (goal : GoalRegion) (n0 : nat) (g : World) : Prop :=
  exact_begun g \/
  ((forall k mo, n0 <= k -> m_nn (self g) !! k = Some mo ->
                 pending g k \/ settled goal g mo) /\
   approx_inv goal g).

(** The statements [m_nnLock.lock()], and the statements
    [sol->lock.lock()]. *)
Definition locks_nn (p : Pc) : bool :=
  match p with
  | NearestLock | AddLock => true
  | _ => false
  end.

Definition locks_sol (p : Pc) : bool :=
  match p with
  | ExactLock | ApproxLock => true
  | _ => false
  end.

(** The nearest-neighbour query on a tree that is not empty answers with a
    node of the tree. *)
Definition nearest_ok (nearest : list Motion -> State -> nat) : Prop :=
  forall nn q, nn <> [] -> nearest nn q < length nn.

(** The statements at which [nmotion] holds the answer of the query and is
    still to be dereferenced. *)
Definition located (p : Pc) : bool :=
  match p with
  | NearestUnlock | SteerState | CheckMotion => true
  | _ => false
  end.

(** The statements at which [motion] is still to be dereferenced. *)
Definition inserted (p : Pc) : bool :=
  match p with
  | AddUnlock | GoalTest => true
  | _ => false
  end.

(** The references that a worker is about to follow designate nodes. *)
Record live_inv (g : World) : Prop := {
  live_tree : m_nn (self g) <> [];
  live_nmotion : forall i w, workers g !! i = Some w ->
                             located (pc w) = true ->
                             nmotion w < length (m_nn (self g));
  live_motion : forall i w, workers g !! i = Some w ->
                            inserted (pc w) = true ->
                            motion w < length (m_nn (self g))
}.

(** Two ticks that differ at most in the random draw and in the state that
    the goal's sampler would give. *)
Definition same_draws (t t' : Tick) : Prop :=
  tid t = tid t' /\ now t = now t' /\ sample t = sample t'.

(** The events by which [solve] reports a solution to the goal. *)
Definition reports_to_goal (e : Event) : bool :=
  match e with
  | SetDifference _ | SetSolutionPath _ _ => true
  | _ => false
  end.

(** What the writes made so far to the distance field tell of the solution
    record: a worker between its exact write and the assignment of
    [sol->solution] made the last write; when the last write is an exact
    write, its writer is at that place or the recorded solution is a node
    at the written distance; a worker that runs alone makes no write after
    its exact write. *)
Record write_inv (goal : GoalRegion) (writes : list DifWrite) (g : World)
  : Prop := {
  wr_pending : forall j w, workers g !! j = Some w -> pc w = ExactSetSol ->
                           last writes = Some (ExactWrite j (dist w));
  wr_recorded : forall i d, last writes = Some (ExactWrite i d) ->
    (exists w, workers g !! i = Some w /\ pc w = ExactSetSol /\
               dist w = d) \/
    (exists m mo, solution (sol g) = Some m /\
                  m_nn (self g) !! m = Some mo /\
                  isSatisfied goal (state mo) = (true, d));
  wr_alone : length (workers g) = 1 ->
    forall w, workers g !! 0 = Some w ->
      solution (sol g) <> None \/ pc w = ExactUnlock ->
      (exists d, last writes = Some (ExactWrite 0 d)) /\
      (pc w = ExactUnlock \/ pc w = Returned)
}.


(** Every worker is at the head of the loop or has returned. *)
Definition idle (g : World) : Prop :=
  forall i w, workers g !! i = Some w ->
              pc w = LoopHead \/ pc w = Returned.

(** * Properties *)

(** ** Comparisons *)


Lemma Qltb_ge (x y : Q) : Qltb x y = false <-> (y <= x)%Q.
Proof. unfold Qltb, Qle. apply Z.ltb_ge. Qed.

(** The comparison of doubles is transitive and irreflexive, NaN and the
    infinities included. *)
Lemma dlt_trans (a b c : double) :
  dlt a b = true -> dlt b c = true -> dlt a c = true.
Proof.
  unfold dlt, SFltb, SFcompare.
  destruct a as [sa|sa| |sa ma ea], b as [sb|sb| |sb mb eb],
    c as [sc|sc| |sc mc ec]; try discriminate;
    try destruct sa; try destruct sb; try destruct sc; try discriminate;
    try reflexivity.
  all: change (Pos.compare_cont Eq) with Pos.compare.
  all: destruct (Z.compare_spec ea eb), (Z.compare_spec eb ec),
         (Z.compare_spec ea ec); try discriminate; try reflexivity; try lia.
  all: subst.
  all: destruct (Pos.compare_spec ma mb), (Pos.compare_spec mb mc),
         (Pos.compare_spec ma mc); simpl;
         try discriminate; try reflexivity; try lia.
Qed.

Lemma dlt_irrefl (a : double) : dlt a a = false.
Proof.
  unfold dlt, SFltb, SFcompare.
  destruct a as [sa|sa| |sa ma ea]; try destruct sa; try reflexivity.
  all: rewrite Z.compare_refl; change (Pos.compare_cont Eq) with Pos.compare;
    by rewrite Pos.compare_refl.
Qed.

Lemma dlt_elt (d a : double) : dlt d a = true <-> elt d a.
Proof. done. Qed.

Lemma ele_refl (a : double) : ele a a.
Proof. by left. Qed.

Lemma elt_ele (a b : double) : elt a b -> ele a b.
Proof. by right. Qed.

Lemma elt_ele_trans (a b c : double) : elt a b -> ele b c -> elt a c.
Proof. intros Hab [<- | Hbc]; [done | by eapply dlt_trans]. Qed.

Lemma ele_trans (a b c : double) : ele a b -> ele b c -> ele a c.
Proof.
  intros [<- | Hab] Hbc; [done|]. right. by eapply elt_ele_trans.
Qed.

(** ** The numbers that doubles stand for *)



Local Open Scope Q_scope.








Local Close Scope Q_scope.

Section PlannerFacts.

Variable si : SpaceInformationKinematic.
Variable m_pdef : ProblemDefinition.
Variable m_rho : double.
Variable m_goalBias : double.
Variable nearest : list Motion -> State -> nat.

Local Abbreviation dim := (dim si).
Local Abbreviation steer := (steer si m_rho).
Local Abbreviation steer_value := (steer_value m_rho).
Local Abbreviation compute_range := (compute_range si m_rho).
Local Abbreviation range_at := (range_at si m_rho).
Local Abbreviation new_Worker := (new_Worker si m_rho).
Local Abbreviation threadSolve_step :=
  (threadSolve_step si m_rho m_goalBias nearest).
Local Abbreviation step := (step si m_rho m_goalBias nearest).
Local Abbreviation run := (run si m_rho m_goalBias nearest).
Local Abbreviation launch := (launch si m_rho).
Local Abbreviation dif_writes := (dif_writes si m_rho m_goalBias nearest).
Local Abbreviation reachable := (reachable si m_rho m_goalBias nearest).
Local Abbreviation seed_one := (seed_one si m_pdef).
Local Abbreviation seed_loop := (seed_loop si m_pdef).
Local Abbreviation seed := (seed si m_pdef).
Local Abbreviation solve := (solve si m_pdef m_rho m_goalBias nearest).
Local Abbreviation pending_starts := (pending_starts m_pdef).
Local Abbreviation passes_checks := (passes_checks si).
Local Abbreviation tree_inv := (tree_inv si m_pdef).
Local Abbreviation roots_ok := (roots_ok si m_pdef).
Local Abbreviation planner_ok := (planner_ok si m_pdef).

(** ** The steering rule *)

Lemma nth_fmap_seq (f : nat -> double) (n i : nat) :
  i < n -> nth i (f <$> seq 0 n) dzero = f i.
Proof.
  intros Hi. by rewrite nth_lookup, list_lookup_fmap, lookup_seq_lt.
Qed.

Lemma value_steer (rng : list double) (r n : State) (i : nat) :
  i < dim -> value (steer rng r n) i = steer_value rng r n i.
Proof. apply nth_fmap_seq. Qed.

Lemma nth_compute_range (i : nat) :
  i < dim -> nth i compute_range dzero = range_at i.
Proof. apply nth_fmap_seq. Qed.

(** ** Executions *)

Lemma run_app goal endTime (s1 s2 : list Tick) (g : World) :
  run goal endTime (s1 ++ s2) g =
  match run goal endTime s1 g with
  | Some g' => run goal endTime s2 g'
  | None => None
  end.
Proof.
  revert g. induction s1 as [|t s1 IH]; intros g; simpl; [done|].
  destruct (step goal endTime t g); [apply IH | done].
Qed.

Lemma reachable_step goal endTime (p : pRRT) (g g' : World) (t : Tick) :
  reachable goal endTime p g -> step goal endTime t g = Some g' ->
  reachable goal endTime p g'.
Proof.
  intros [sched Hrun] Hstep. exists (sched ++ [t]).
  rewrite run_app, Hrun. simpl. by rewrite Hstep.
Qed.

(** Induction on the executions: a property of the launch world that every
    tick preserves holds of every reachable world. *)
Lemma reachable_ind goal endTime (p : pRRT) (P : World -> Prop) :
  P (launch p) ->
  (forall g t g', reachable goal endTime p g -> P g ->
                  step goal endTime t g = Some g' -> P g') ->
  forall g, reachable goal endTime p g -> P g.
Proof.
  intros Hinit Hstep g [sched Hrun]. revert g Hrun.
  induction sched as [|t sched IH] using rev_ind; intros g Hrun.
  - simpl in Hrun. by inversion Hrun.
  - rewrite run_app in Hrun.
    destruct (run goal endTime sched (launch p)) as [g1|] eqn:H1; [|done].
    simpl in Hrun.
    destruct (step goal endTime t g1) as [g2|] eqn:H2; [|done].
    inversion Hrun; subst g2.
    eapply Hstep; [by exists sched | by apply IH | exact H2].
Qed.

(** A tick decomposes into the statement of the scheduled worker. *)
Lemma step_inv goal endTime (t : Tick) (g g' : World) :
  step goal endTime t g = Some g' ->
  exists w p' s' w',
    workers g !! tid t = Some w /\
    threadSolve_step goal endTime t (self g) (sol g) w = Some (p', s', w') /\
    g' = {| self := p'; sol := s'; workers := <[tid t := w']> (workers g) |}.
Proof.
  unfold step. intros H.
  destruct (workers g !! tid t) as [w|] eqn:Hw; [|done].
  destruct (threadSolve_step _ _ _ _ _ _) as [[[p' s'] w']|] eqn:Hts; [|done].
  inversion H. by exists w, p', s', w'.
Qed.

(** ** The solution record and its mutex *)

Lemma sol_inv_launch (p : pRRT) : sol_inv compute_range (launch p).
Proof.
  intros i w Hw. apply lookup_replicate_1 in Hw as [-> _].
  split; simpl; by try discriminate || intros [|].
Qed.

Lemma sol_inv_step goal endTime (t : Tick) (g g' : World) (rng : list double) :
  sol_inv rng g -> step goal endTime t g = Some g' -> sol_inv rng g'.
Proof.
  intros Hinv Hstep.
  apply step_inv in Hstep as (w & p' & s' & w' & Hw & Hts & ->).
  pose proof (Hinv _ _ Hw) as [Hr Ho Ht Hwr].
  intros i wi Hwi. simpl in Hwi |- *.
  destruct (decide (i = tid t)) as [->|Hne].
  - rewrite list_lookup_insert_eq in Hwi by (by eapply lookup_lt_Some).
    inversion Hwi; subst wi; clear Hwi.
    unfold threadSolve_step in Hts.
    destruct (pc w) eqn:Hpc; repeat case_match; simplify_eq;
      split; simpl; intros; try done; try (by intuition discriminate).
    all: auto.
  - rewrite list_lookup_insert_ne in Hwi by done.
    pose proof (Hinv _ _ Hwi) as [Hri Hoi Hti Hwri].
    unfold threadSolve_step in Hts.
    destruct (pc w) eqn:Hpc; repeat case_match; simplify_eq;
      split; simpl; intros; try done; auto.
    all: exfalso;
      assert (holds_lock (pc wi) = true) as Hh
        by (repeat match goal with
                   | E : _ \/ _ |- _ => destruct E
                   | E : pc _ = _ |- _ => rewrite E
                   end; done);
      specialize (Hoi Hh); try specialize (Ho eq_refl); congruence.
Qed.

Lemma lock_inv_launch (p : pRRT) : lock_inv (launch p).
Proof. intros i Hi. discriminate. Qed.

Lemma lock_inv_step goal endTime (t : Tick) (g g' : World) :
  lock_inv g -> step goal endTime t g = Some g' -> lock_inv g'.
Proof.
  intros Hinv Hstep.
  apply step_inv in Hstep as (w & p' & s' & w' & Hw & Hts & ->).
  assert (Hlen : tid t < length (workers g)) by (by eapply lookup_lt_Some).
  intros i Hi. simpl in Hi |- *.
  assert (Hkeep : lock s' = lock (sol g) -> holds_lock (pc w) = holds_lock (pc w') ->
                  exists wi, <[tid t := w']> (workers g) !! i = Some wi /\
                             holds_lock (pc wi) = true).
  { intros Hlock Hpc. rewrite Hlock in Hi.
    destruct (Hinv i Hi) as (wi & Hwi & Hhold).
    destruct (decide (i = tid t)) as [->|Hne].
    - exists w'. rewrite list_lookup_insert_eq by done.
      rewrite Hw in Hwi. inversion Hwi; subst wi. by rewrite <- Hpc.
    - exists wi. by rewrite list_lookup_insert_ne. }
  assert (Htake : lock s' = Some (tid t) -> holds_lock (pc w') = true ->
                  lock (sol g) = None ->
                  exists wi, <[tid t := w']> (workers g) !! i = Some wi /\
                             holds_lock (pc wi) = true).
  { intros Hlock Hpc _. rewrite Hlock in Hi. inversion Hi; subst i.
    exists w'. by rewrite list_lookup_insert_eq. }
  unfold threadSolve_step in Hts.
  destruct (pc w) eqn:Hpc; repeat case_match; simplify_eq;
    try (by apply Hkeep; rewrite ?Hpc);
    try (by apply Htake).
Qed.

Lemma lock_inv_reachable goal endTime (p : pRRT) (g : World) :
  reachable goal endTime p g -> lock_inv g.
Proof.
  revert g. apply reachable_ind.
  - apply lock_inv_launch.
  - intros g t g' _ Hinv Hstep. by eapply lock_inv_step.
Qed.

Lemma sol_inv_reachable goal endTime (p : pRRT) (g : World) :
  reachable goal endTime p g -> sol_inv compute_range g.
Proof.
  revert g. apply reachable_ind.
  - apply sol_inv_launch.
  - intros g t g' _ Hinv Hstep. by eapply sol_inv_step.
Qed.

(** The worker that a tick schedules, after the tick. *)
Lemma step_worker goal endTime (t : Tick) (g g' : World) (w w' : Worker) :
  step goal endTime t g = Some g' ->
  workers g !! tid t = Some w -> workers g' !! tid t = Some w' ->
  exists p' s',
    threadSolve_step goal endTime t (self g) (sol g) w = Some (p', s', w') /\
    self g' = p' /\ sol g' = s'.
Proof.
  intros Hstep Hw Hw'.
  apply step_inv in Hstep as (w0 & p' & s' & w0' & Hw0 & Hts & ->).
  simpl in Hw'. rewrite Hw in Hw0. inversion Hw0; subst w0.
  rewrite list_lookup_insert_eq in Hw' by (by eapply lookup_lt_Some).
  inversion Hw'; subst w0'. by exists p', s'.
Qed.

(** The statement "find state to add" stores the steered state. *)
Lemma steer_step_xstate goal endTime (p : pRRT) (t : Tick) (g g' : World)
    (w w' : Worker) :
  reachable goal endTime p g ->
  workers g !! tid t = Some w -> pc w = SteerState ->
  step goal endTime t g = Some g' ->
  workers g' !! tid t = Some w' ->
  exists nm, m_nn (self g) !! nmotion w = Some nm /\
             xstate w' = steer compute_range (rstate w) (state nm).
Proof.
  intros Hreach Hw Hpc Hstep Hw'.
  apply sol_inv_reachable in Hreach.
  destruct (Hreach _ _ Hw) as [Hrange _ _ _].
  destruct (step_worker _ _ _ _ _ _ _ Hstep Hw Hw') as (p' & s' & Hts & _).
  unfold threadSolve_step in Hts. rewrite Hpc in Hts.
  destruct (m_nn (self g) !! nmotion w) as [nm|]; [|done].
  inversion Hts; subst. exists nm. split; [done|]. simpl. by rewrite Hrange.
Qed.

(** ** The tree *)

Lemma tree_ok_snoc (nn : list Motion) (mo : Motion) :
  tree_ok nn ->
  (forall j, parent mo = Some j -> j < length nn) ->
  tree_ok (nn ++ [mo]).
Proof.
  intros Hok Hmo i mo' j Hi Hp.
  destruct (decide (i < length nn)) as [Hlt|Hge].
  - rewrite lookup_app_l in Hi by done. by eapply Hok.
  - rewrite lookup_app_r in Hi by lia.
    apply list_lookup_singleton_Some in Hi as [Hi ->].
    specialize (Hmo _ Hp). lia.
Qed.

Lemma roots_ok_snoc (nn : list Motion) (mo : Motion) :
  roots_ok nn ->
  (parent mo = None ->
   state mo ∈ startStates m_pdef /\
   satisfiesBounds si (state mo) && isValid si (state mo) = true) ->
  roots_ok (nn ++ [mo]).
Proof.
  intros Hok Hmo i mo' Hi Hp.
  destruct (decide (i < length nn)) as [Hlt|Hge].
  - rewrite lookup_app_l in Hi by done. by eapply Hok.
  - rewrite lookup_app_r in Hi by lia.
    apply list_lookup_singleton_Some in Hi as [Hi ->]. by apply Hmo.
Qed.

Lemma refs_inv_at_snoc goal (nn : list Motion) (mo : Motion) (w : Worker) :
  refs_inv_at goal nn w -> refs_inv_at goal (nn ++ [mo]) w.
Proof.
  intros [Hn Hm Hv Hs]. split; rewrite ?length_app; simpl.
  - intros H. specialize (Hn H). lia.
  - intros H. specialize (Hm H). lia.
  - intros H. destruct (Hv H) as (mo' & Hmo' & Hsat).
    exists mo'. split; [|done]. by apply lookup_app_l_Some.
  - done.
Qed.

Lemma tree_inv_launch goal (p : pRRT) :
  planner_ok p -> tree_inv goal p (launch p).
Proof.
  intros [Ht Hr]. split; simpl; try done.
  intros i w Hw. apply lookup_replicate_1 in Hw as [-> _].
  split; simpl; done.
Qed.

Lemma tree_inv_step goal endTime (p0 : pRRT) (t : Tick) (g g' : World) :
  tree_inv goal p0 g -> step goal endTime t g = Some g' ->
  tree_inv goal p0 g'.
Proof.
  intros [Htree Hroots Hsol Happ Hrefs Hev Htc Hadd] Hstep.
  apply step_inv in Hstep as (w & p' & s' & w' & Hw & Hts & ->).
  pose proof (Hrefs _ _ Hw) as [Hn Hm Hv Hs].
  assert (Hlen : tid t < length (workers g)) by (by eapply lookup_lt_Some).
  unfold threadSolve_step in Hts.
  destruct (pc w) eqn:Hpc; repeat case_match; simplify_eq;
    split; simpl; try done.
  all: try (intros i wi Hwi;
            destruct (decide (i = tid t)) as [->|Hne];
            [ rewrite list_lookup_insert_eq in Hwi by done;
              inversion Hwi; subst wi; clear Hwi
            | rewrite list_lookup_insert_ne in Hwi by done ]).
  all: try (by apply Hrefs in Hwi).
  all: try (split; simpl; try done; try (by rewrite Hpc in * ); fail).
  all: try (intros m' Hm'; rewrite ?length_app; simpl;
            assert (m' < length (m_nn (self g)))
              by first [ apply Hsol; congruence
                       | apply Happ; congruence
                       | inversion Hm'; subst; by apply Hm ];
            lia).
  all: try (apply refs_inv_at_snoc; by apply Hrefs in Hwi).
  all: try (apply tree_ok_snoc; [done|]; simpl; intros j Hj;
            inversion Hj; subst; by apply Hn).
  all: try (by apply roots_ok_snoc).
  all: split; simpl; try done; rewrite ?length_app; simpl; try lia.
  all: try (intros _; by eapply lookup_lt_Some).
  all: intros _; eexists; split; [eassumption|]; apply surjective_pairing.
Qed.

(** C1 (as amended).  In every iteration of the worker loop, coordinate [i]
    of the steered state is the candidate's coordinate when the candidate is
    less than [rho * (maxValue - minValue)] away from the nearest node in
    that coordinate; otherwise it is the nearest node's coordinate plus
    [rho] times the difference between the candidate's coordinate and the
    nearest node's.  The difference, the product, the sum and the range are
    the rounded results of the [double] operations. *)
Theorem steer_step_coordinates goal endTime (p : pRRT) (t : Tick)
    (g g' : World) (w w' : Worker) :
  reachable goal endTime p g ->
  workers g !! tid t = Some w -> pc w = SteerState ->
  step goal endTime t g = Some g' ->
  workers g' !! tid t = Some w' ->
  exists nm, m_nn (self g) !! nmotion w = Some nm /\
    forall i, i < dim ->
      let c := getStateComponent si i in
      let diff := dsub (value (rstate w) i) (value (state nm) i) in
      value (xstate w') i =
        if dlt (dabs diff) (dmul m_rho (dsub (maxValue c) (minValue c)))
        then value (rstate w) i
        else dadd (value (state nm) i) (dmul diff m_rho).
Proof.
  intros Hreach Hw Hpc Hstep Hw'.
  destruct (steer_step_xstate _ _ _ _ _ _ _ _ Hreach Hw Hpc Hstep Hw')
    as (nm & Hnm & ->).
  exists nm. split; [done|]. intros i Hi. simpl.
  rewrite value_steer by done. unfold steer_value.
  by rewrite nth_compute_range.
Qed.

Local Open Scope Q_scope.


Local Close Scope Q_scope.

(** ** The distance field of the solution record *)

(** What one tick does to [approxdif], by the statement executed. *)
Lemma approxdif_step goal endTime (p : pRRT) (t : Tick) (g g' : World)
    (w : Worker) :
  reachable goal endTime p g ->
  step goal endTime t g = Some g' ->
  workers g !! tid t = Some w ->
  match pc w with
  | ExactSetDif => approxdif (sol g') = dist w
  | ApproxSetDif => approxdif (sol g') = dist w /\
                    elt (approxdif (sol g')) (approxdif (sol g))
  | _ => approxdif (sol g') = approxdif (sol g)
  end.
Proof.
  intros Hreach Hstep Hw.
  apply sol_inv_reachable in Hreach.
  destruct (Hreach _ _ Hw) as [_ _ Hretest _].
  apply step_inv in Hstep as (w0 & p' & s' & w' & Hw0 & Hts & ->).
  rewrite Hw in Hw0. inversion Hw0; subst w0. simpl.
  unfold threadSolve_step in Hts.
  destruct (pc w) eqn:Hpc; repeat case_match; simplify_eq; simpl; try done.
  split; [done|]. apply dlt_elt. by apply Hretest.
Qed.

(** One tick that is not an exact-solution write. *)
Lemma approxdif_step_le goal endTime (p : pRRT) (t : Tick) (g g' : World) :
  reachable goal endTime p g ->
  step goal endTime t g = Some g' ->
  Forall (fun wr => is_exact wr = false) (option_list (dif_write t g)) ->
  ele (approxdif (sol g')) (approxdif (sol g)) /\
  Forall (fun wr => elt (written wr) (approxdif (sol g)))
         (option_list (dif_write t g)).
Proof.
  intros Hreach Hstep.
  pose proof (step_inv _ _ _ _ _ Hstep) as (w & _ & _ & _ & Hw & _ & _).
  pose proof (approxdif_step _ _ _ _ _ _ _ Hreach Hstep Hw) as Hdif.
  unfold dif_write. rewrite Hw. revert Hdif.
  destruct (pc w); simpl; intros Hdif Hno;
    try (rewrite Hdif; split; [apply ele_refl | constructor]).
  - inversion Hno; subst. discriminate.
  - destruct Hdif as [Heq Hlt]. split; [by apply elt_ele|].
    constructor; [|constructor]. simpl. by rewrite Heq in Hlt.
Qed.

(** C2 (as amended).  Along any stretch of an execution in which no worker
    executes the exact-solution write [sol->approxdif = dist], the distance
    field does not increase: the writes of the approximate-solution update
    only ever store a strictly smaller distance. *)
Theorem approxdif_non_increasing goal endTime (p : pRRT)
    (sched : list Tick) (g g' : World) :
  reachable goal endTime p g ->
  run goal endTime sched g = Some g' ->
  Forall (fun wr => is_exact wr = false) (dif_writes goal endTime sched g) ->
  ele (approxdif (sol g')) (approxdif (sol g)) /\
  Forall (fun wr => elt (written wr) (approxdif (sol g)))
         (dif_writes goal endTime sched g).
Proof.
  revert g. induction sched as [|t sched IH]; intros g Hreach Hrun Hno.
  - simpl in Hrun. inversion Hrun; subst.
    split; [apply ele_refl | constructor].
  - simpl in Hrun, Hno |- *.
    destruct (step goal endTime t g) as [g1|] eqn:Hstep; [|done].
    apply Forall_app in Hno as [Hno1 Hno2].
    destruct (IH g1 (reachable_step _ _ _ _ _ _ Hreach Hstep) Hrun Hno2)
      as [IH1 IH2].
    destruct (approxdif_step_le _ _ _ _ _ _ Hreach Hstep Hno1) as [Hle Hnow].
    split; [exact (ele_trans _ _ _ IH1 Hle)|].
    apply Forall_app. split; [exact Hnow|].
    eapply Forall_impl; [exact IH2|]. intros wr Hwr. simpl in Hwr |- *.
    exact (elt_ele_trans _ _ _ Hwr Hle).
Qed.

(** A worker outside the statements between [lock()] and [unlock()] does
    not own the mutex. *)
Lemma not_owner goal endTime (p : pRRT) (g : World) (i : nat) (w : Worker) :
  reachable goal endTime p g ->
  workers g !! i = Some w -> holds_lock (pc w) = false ->
  lock (sol g) <> Some i.
Proof.
  intros Hreach Hw Hout Hlock.
  destruct (lock_inv_reachable _ _ _ _ Hreach i Hlock) as (w0 & Hw0 & Hin).
  rewrite Hw in Hw0. inversion Hw0; subst w0. congruence.
Qed.

(** C4.  The approximate-solution update is double-checked.  The first
    comparison of [dist] with [approxdif] is made by a worker that does not
    own the lock, and leads to the lock only when [dist] is strictly
    smaller; the comparison is repeated by the owner of the lock; the two
    fields are overwritten only by the two assignments that follow a
    successful second comparison, by the owner of the lock, with [dist]
    strictly smaller than the distance stored before the update. *)
Theorem approx_update_double_checked goal endTime (p : pRRT) (t : Tick)
    (g g' : World) (w w' : Worker) :
  reachable goal endTime p g ->
  step goal endTime t g = Some g' ->
  workers g !! tid t = Some w ->
  workers g' !! tid t = Some w' ->
  (pc w = ApproxTest ->
     lock (sol g) <> Some (tid t) /\ sol g' = sol g /\
     pc w' = if dlt (dist w) (approxdif (sol g)) then ApproxLock
             else LoopHead) /\
  (pc w = ApproxLock ->
     lock (sol g) = None /\
     sol g' = set_lock (sol g) (Some (tid t)) /\ pc w' = ApproxRetest) /\
  (pc w = ApproxRetest ->
     lock (sol g) = Some (tid t) /\ sol g' = sol g /\
     pc w' = if dlt (dist w) (approxdif (sol g)) then ApproxSetDif
             else ApproxUnlock) /\
  (pc w = ApproxSetDif ->
     lock (sol g) = Some (tid t) /\
     dlt (dist w) (approxdif (sol g)) = true /\
     sol g' = set_approxdif (sol g) (dist w) /\
     pc w' = ApproxSetSol) /\
  (pc w = ApproxSetSol ->
     lock (sol g) = Some (tid t) /\
     approxdif (sol g) = dist w /\
     sol g' = set_approxsol (sol g) (Some (motion w)) /\
     pc w' = ApproxUnlock) /\
  (pc w = ApproxUnlock ->
     lock (sol g) = Some (tid t) /\
     sol g' = set_lock (sol g) None /\ pc w' = LoopHead) /\
  (approxsol (sol g') <> approxsol (sol g) -> pc w = ApproxSetSol) /\
  (approxdif (sol g') <> approxdif (sol g) ->
     pc w = ApproxSetDif \/ pc w = ExactSetDif) /\
  (tested (pc w) = true -> dist w' = dist w /\ motion w' = motion w).
Proof.
  intros Hreach Hstep Hw Hw'.
  pose proof (not_owner _ _ _ _ _ _ Hreach Hw) as Hout.
  apply sol_inv_reachable in Hreach.
  destruct (Hreach _ _ Hw) as [_ Howner Hretest Hwritten].
  destruct (step_worker _ _ _ _ _ _ _ Hstep Hw Hw')
    as (p' & s' & Hts & _ & Hs').
  rewrite Hs'. clear Hs' Hw' Hstep.
  unfold threadSolve_step in Hts.
  destruct (pc w) eqn:Hpc; repeat case_match; simplify_eq; simpl;
    repeat split; intros; try done; auto.
Qed.

(** ** The loop of the worker *)

Local Open Scope Q_scope.


Local Close Scope Q_scope.

(** ** Seeding *)

Lemma seed_one_added (p : pRRT) :
  m_addedStartStates (seed_one p) = S (m_addedStartStates p).
Proof. unfold seed_one. by destruct (_ && _). Qed.

Lemma seed_loop_spec (n : nat) (p : pRRT) :
  m_addedStartStates p + n <= getStartStateCount m_pdef ->
  let pending := take n (pending_starts p) in
  m_nn (seed_loop n p)
    = m_nn p ++ (start_motion <$> List.filter passes_checks pending) /\
  events (seed_loop n p)
    = events p ++ ((fun _ => MsgError "Initial state is invalid!")
                     <$> List.filter (fun st => negb (passes_checks st))
                                     pending) /\
  m_addedStartStates (seed_loop n p) = m_addedStartStates p + n /\
  m_threadCount (seed_loop n p) = m_threadCount p /\
  m_nnLock (seed_loop n p) = m_nnLock p.
Proof.
  unfold getStartStateCount, pending_starts.
  revert p. induction n as [|n IH]; intros p Hn; simpl.
  - rewrite !app_nil_r. repeat split; lia.
  - destruct (lookup_lt_is_Some_2 (startStates m_pdef)
                (m_addedStartStates p)) as [st Hst]; [lia|].
    rewrite (drop_S _ _ _ Hst). simpl.
    destruct (IH (seed_one p)) as (IH1 & IH2 & IH3 & IH4 & IH5).
    { rewrite seed_one_added. lia. }
    rewrite seed_one_added in IH1, IH2, IH3.
    rewrite IH1, IH2, IH3, IH4, IH5.
    unfold seed_one, getStartState. rewrite (nth_lookup_Some _ _ _ _ Hst).
    unfold passes_checks.
    destruct (satisfiesBounds si st && isValid si st); simpl;
      rewrite <- ?app_assoc; repeat split; try done; lia.
Qed.

Lemma seed_spec (p : pRRT) :
  m_nn (seed p)
    = m_nn p ++ (start_motion <$> List.filter passes_checks
                                               (pending_starts p)) /\
  events (seed p)
    = events p ++ ((fun _ => MsgError "Initial state is invalid!")
                     <$> List.filter (fun st => negb (passes_checks st))
                                     (pending_starts p)) /\
  m_threadCount (seed p) = m_threadCount p /\
  m_nnLock (seed p) = m_nnLock p.
Proof.
  unfold seed.
  destruct (decide (m_addedStartStates p <= getStartStateCount m_pdef))
    as [Hle|Hgt].
  - destruct (seed_loop_spec
                (getStartStateCount m_pdef - m_addedStartStates p) p)
      as (H1 & H2 & _ & H4 & H5); [lia|].
    rewrite take_ge in H1, H2; [done | |].
    all: unfold pending_starts, getStartStateCount; by rewrite length_drop.
  - replace (getStartStateCount m_pdef - m_addedStartStates p) with 0 by lia.
    unfold pending_starts. rewrite drop_ge by (unfold getStartStateCount in *; lia).
    simpl. by rewrite !app_nil_r.
Qed.


(** C8.  When no goal region is configured, [solve] logs the error
    "Goal undefined" and returns [false]; it does nothing else: the tree and
    the count of added start states are unchanged, the clock is not read and
    no thread is started. *)
Theorem solve_without_goal (p : pRRT) (solveTime now0 : Q)
    (sched : list Tick) :
  getGoal m_pdef = None ->
  exists p',
    solve p solveTime now0 sched = Some (p', false) /\
    events p' = events p ++ [MsgError "Goal undefined"] /\
    m_nn p' = m_nn p /\
    m_addedStartStates p' = m_addedStartStates p.
Proof.
  intros Hgoal. exists (emit p [MsgError "Goal undefined"]).
  unfold solve. by rewrite Hgoal.
Qed.

(** ** The solution path *)

Lemma seed_planner_ok (p : pRRT) : planner_ok p -> planner_ok (seed p).
Proof.
  intros [Ht Hr]. destruct (seed_spec p) as (Hnn & _).
  unfold planner_ok. rewrite Hnn. clear Hnn.
  assert (Hin : forall st, st ∈ List.filter passes_checks (pending_starts p)
                -> st ∈ startStates m_pdef /\ passes_checks st = true).
  { intros st Hst. apply list_elem_of_In, filter_In in Hst as [Hst Hok].
    split; [|done]. apply list_elem_of_In in Hst.
    unfold pending_starts in Hst.
    apply list_elem_of_lookup in Hst as [i Hi].
    rewrite lookup_drop in Hi. by eapply list_elem_of_lookup_2. }
  revert Hin.
  induction (List.filter passes_checks (pending_starts p)) as [|st l IH]
    using rev_ind; intros Hin.
  - simpl. by rewrite app_nil_r.
  - rewrite fmap_app, app_assoc. simpl.
    destruct IH as [IHt IHr].
    { intros st' Hst'. apply Hin. apply elem_of_app. by left. }
    split.
    + apply tree_ok_snoc; [done|]. by intros j.
    + apply roots_ok_snoc; [done|]. intros _. simpl.
      apply Hin. apply elem_of_app. right. by apply list_elem_of_singleton.
Qed.

Lemma tree_inv_reachable goal endTime (p : pRRT) (g : World) :
  planner_ok p -> reachable goal endTime p g -> tree_inv goal p g.
Proof.
  intros Hok. revert g. apply reachable_ind.
  - by apply tree_inv_launch.
  - intros g t g' _ Hinv Hstep. by eapply tree_inv_step.
Qed.

(** With enough fuel, the walk from a node of a well-formed tree ends, at a
    node without parent. *)
Lemma walk_spec (nn : list Motion) :
  tree_ok nn ->
  forall fuel m mo, m < fuel -> nn !! m = Some mo ->
    exists mpath root,
      walk fuel nn (Some m) = Some (mo :: mpath) /\
      last (mo :: mpath) = Some root /\ parent root = None /\ root ∈ nn.
Proof.
  intros Hok. induction fuel as [|fuel IH]; intros m mo Hm Hmo; [lia|].
  simpl. rewrite Hmo.
  destruct (parent mo) as [j|] eqn:Hp.
  - assert (Hj : j < m) by (by eapply Hok).
    destruct (lookup_lt_is_Some_2 nn j) as [mj Hmj].
    { apply lookup_lt_Some in Hmo. lia. }
    destruct (IH j mj) as (mpath & root & Hwalk & Hlast & Hroot & Hin);
      [lia | done |].
    rewrite Hwalk. exists (mj :: mpath), root.
    by rewrite last_cons_cons.
  - exists [], mo. destruct fuel; simpl; repeat split; try done.
    all: by eapply list_elem_of_lookup_2.
Qed.


Lemma last_path_of (mpath : list Motion) :
  last (path_of mpath) = state <$> head mpath.
Proof.
  unfold path_of, copyState. by rewrite fmap_last, last_reverse.
Qed.

(** The events that [solve] emits once the workers are joined. *)
Lemma resolve_inv (g : World) (p' : pRRT) :
  resolve g = Some p' ->
  m_nn p' = m_nn (self g) /\
  m_addedStartStates p' = m_addedStartStates (self g) /\
  events p' =
    events (self g) ++ (ThreadJoin <$> seq 0 (m_threadCount (self g)))
    ++ match final_solution (sol g) with
       | Some m =>
           match walk (length (m_nn (self g))) (m_nn (self g)) (Some m) with
           | Some mpath =>
               [SetDifference (approxdif (sol g));
                SetSolutionPath (path_of mpath)
                                (bool_decide (solution (sol g) = None))]
               ++ (if bool_decide (solution (sol g) = None)
                   then [MsgWarn "Found approximate solution"] else [])
           | None => []
           end
       | None => []
       end
    ++ [MsgInform "Created %u states" (length (m_nn (self g)))].
Proof.
  unfold resolve, final_solution.
  destruct (solution (sol g)) as [m|] eqn:Hsol.
  - rewrite bool_decide_eq_false_2 by done. rewrite Hsol. simpl.
    destruct (walk _ _ _) as [mpath|]; [|done].
    intros H. inversion H; subst; clear H. simpl.
    repeat split. by rewrite <- !app_assoc.
  - rewrite bool_decide_eq_true_2 by done. simpl.
    destruct (approxsol (sol g)) as [m|] eqn:Happ.
    + destruct (walk _ _ _) as [mpath|]; [|done].
      intros H. inversion H; subst; clear H. simpl.
      repeat split. by rewrite <- !app_assoc.
    + intros H. inversion H; subst; clear H. simpl.
      repeat split. by rewrite <- !app_assoc.
Qed.

(** Once the workers are joined on a well-formed tree, the walk from the
    solution node ends and [solve] completes. *)
Lemma resolve_total goal (p0 : pRRT) (g : World) :
  tree_inv goal p0 g ->
  (exists p', resolve g = Some p') /\
  forall m, final_solution (sol g) = Some m ->
    exists mo mpath root,
      m_nn (self g) !! m = Some mo /\
      walk (length (m_nn (self g))) (m_nn (self g)) (Some m)
        = Some (mo :: mpath) /\
      last (mo :: mpath) = Some root /\ parent root = None /\
      root ∈ m_nn (self g).
Proof.
  intros Hinv.
  assert (Hwalk : forall m, final_solution (sol g) = Some m ->
    exists mo mpath root,
      m_nn (self g) !! m = Some mo /\
      walk (length (m_nn (self g))) (m_nn (self g)) (Some m)
        = Some (mo :: mpath) /\
      last (mo :: mpath) = Some root /\ parent root = None /\
      root ∈ m_nn (self g)).
  { intros m Hm.
    assert (Hlt : m < length (m_nn (self g))).
    { unfold final_solution in Hm.
      destruct (solution (sol g)) eqn:Hsol.
      - inversion Hm; subst. by apply (inv_solution _ _ _ _ _ Hinv).
      - by apply (inv_approxsol _ _ _ _ _ Hinv). }
    destruct (lookup_lt_is_Some_2 _ _ Hlt) as [mo Hmo].
    destruct (walk_spec _ (inv_tree _ _ _ _ _ Hinv) _ _ _ Hlt Hmo)
      as (mpath & root & H1 & H2 & H3 & H4).
    by exists mo, mpath, root. }
  split; [|done].
  unfold resolve.
  assert (Hfin : solution
            (if bool_decide (solution (sol g) = None)
             then set_solution (sol g) (approxsol (sol g)) else sol g)
            = final_solution (sol g)).
  { unfold final_solution. destruct (solution (sol g)) eqn:Hsol.
    - by rewrite bool_decide_eq_false_2.
    - by rewrite bool_decide_eq_true_2. }
  rewrite Hfin.
  destruct (final_solution (sol g)) as [m|] eqn:Hm; [|by eexists].
  destruct (Hwalk m eq_refl) as (mo & mpath & root & _ & Hw & _).
  simpl. rewrite Hw. by eexists.
Qed.

(** The two ways in which [solve] returns when a goal is configured. *)
Lemma solve_inv goal (p p' : pRRT) (solveTime now0 : Q) (sched : list Tick)
    (b : bool) :
  getGoal m_pdef = Some goal ->
  solve p solveTime now0 sched = Some (p', b) ->
  let p1 := seed (emit p [TimeNow]) in
  let p2 := emit p1 [MsgInform "Starting with %u states"
                               (length (m_nn p1))] in
  (m_nn p1 = [] /\ b = false /\
   p' = emit p1 [MsgError "There are no valid initial states!"]) \/
  (m_nn p1 <> [] /\
   exists g, run goal (now0 + solveTime)%Q sched (launch p2) = Some g /\
             forallb has_returned (workers g) = true /\
             resolve g = Some p' /\ b = isAchieved p').
Proof.
  intros Hgoal Hsolve p1 p2. unfold solve in Hsolve.
  rewrite Hgoal in Hsolve. fold p1 in Hsolve.
  destruct (Nat.eqb_spec (length (m_nn p1)) 0) as [Hz|Hnz].
  - left. apply length_zero_iff_nil in Hz. by inversion Hsolve.
  - right. split; [intros Hnil; apply Hnz; by rewrite Hnil|].
    fold p2 in Hsolve.
    destruct (run goal _ sched (launch p2)) as [g|]; [|done].
    destruct (forallb has_returned (workers g)) eqn:Hret; [|done].
    destruct (resolve g) as [p''|] eqn:Hres; [|done].
    inversion Hsolve; subst. by exists g.
Qed.

Lemma solve_complete goal (p p' : pRRT) (solveTime now0 : Q)
    (sched : list Tick) (g : World) :
  getGoal m_pdef = Some goal ->
  let p1 := seed (emit p [TimeNow]) in
  let p2 := emit p1 [MsgInform "Starting with %u states"
                               (length (m_nn p1))] in
  m_nn p1 <> [] ->
  run goal (now0 + solveTime)%Q sched (launch p2) = Some g ->
  forallb has_returned (workers g) = true ->
  resolve g = Some p' ->
  solve p solveTime now0 sched = Some (p', isAchieved p').
Proof.
  intros Hgoal p1 p2 Hne Hrun Hret Hres. unfold solve.
  rewrite Hgoal. fold p1.
  destruct (Nat.eqb_spec (length (m_nn p1)) 0) as [Hz|Hnz].
  - by apply length_zero_iff_nil in Hz.
  - fold p2. by rewrite Hrun, Hret, Hres.
Qed.

(** Membership of an event written out in a sequence of events. *)
Ltac find_event :=
  repeat first [ apply list_elem_of_here
               | apply list_elem_of_further
               | apply elem_of_app; right ].


(** ** The distance handed to the goal *)

(** One tick stores the distance of the worker that writes, if any. *)
Lemma approxdif_step_write goal endTime (t : Tick) (g g' : World) :
  step goal endTime t g = Some g' ->
  approxdif (sol g') = match dif_write t g with
                       | Some wr => written wr
                       | None => approxdif (sol g)
                       end.
Proof.
  intros Hstep.
  apply step_inv in Hstep as (w & p' & s' & w' & Hw & Hts & ->).
  unfold dif_write. rewrite Hw. simpl.
  unfold threadSolve_step in Hts.
  destruct (pc w) eqn:Hpc; repeat case_match; by simplify_eq.
Qed.

(** After an execution, the field holds the distance of the last write. *)
Lemma run_approxdif_last_write goal endTime (sched : list Tick)
    (g g' : World) :
  run goal endTime sched g = Some g' ->
  approxdif (sol g') = match last (dif_writes goal endTime sched g) with
                       | Some wr => written wr
                       | None => approxdif (sol g)
                       end.
Proof.
  revert g. induction sched as [|t sched IH]; intros g Hrun; simpl in *.
  - by inversion Hrun.
  - destruct (step goal endTime t g) as [g1|] eqn:Hstep; [|done].
    rewrite (IH _ Hrun), last_app.
    destruct (last (dif_writes goal endTime sched g1)); [done|].
    rewrite (approxdif_step_write _ _ _ _ _ Hstep).
    by destruct (dif_write t g).
Qed.

(** The cases of the membership of an event in a sequence of events. *)
Ltac event_cases H :=
  simpl in H;
  repeat first [ rewrite elem_of_app in H
               | rewrite elem_of_cons in H
               | rewrite list_elem_of_fmap in H
               | rewrite elem_of_nil in H ];
  repeat match goal with
         | E : _ \/ _ |- _ => destruct E
         | E : exists _, _ |- _ => destruct E
         | E : _ /\ _ |- _ => destruct E
         | E : False |- _ => destruct E
         end;
  try discriminate.

Lemma dif_writes_app goal endTime (s1 s2 : list Tick) (g g1 : World) :
  run goal endTime s1 g = Some g1 ->
  dif_writes goal endTime (s1 ++ s2) g
  = dif_writes goal endTime s1 g ++ dif_writes goal endTime s2 g1.
Proof.
  revert g. induction s1 as [|t s1 IH]; intros g Hrun; simpl in *.
  - by inversion Hrun.
  - destruct (step goal endTime t g) as [g'|]; [|done].
    by rewrite (IH _ Hrun), app_assoc.
Qed.

Lemma run_workers_length goal endTime (sched : list Tick) (g g' : World) :
  run goal endTime sched g = Some g' ->
  length (workers g') = length (workers g).
Proof.
  revert g. induction sched as [|t sched IH]; intros g Hrun; simpl in *.
  - by inversion Hrun.
  - destruct (step goal endTime t g) as [g1|] eqn:Hstep; [|done].
    rewrite (IH _ Hrun).
    apply step_inv in Hstep as (w & p' & s' & w' & _ & _ & ->).
    simpl. by rewrite length_insert.
Qed.

Lemma write_inv_launch goal (p : pRRT) : write_inv goal [] (launch p).
Proof.
  split; simpl; try done.
  - intros j w Hw. by apply lookup_replicate_1 in Hw as [-> _].
  - intros _ w Hw. apply lookup_replicate_1 in Hw as [-> _].
    by intros [?|?].
Qed.

Lemma write_inv_step goal endTime (p : pRRT) (t : Tick) (g g' : World)
    (writes : list DifWrite) :
  planner_ok p -> reachable goal endTime p g ->
  write_inv goal writes g -> step goal endTime t g = Some g' ->
  write_inv goal (writes ++ option_list (dif_write t g)) g'.
Proof.
  intros Hok Hreach [Hpend Hrec Halone] Hstep.
  pose proof (sol_inv_reachable _ _ _ _ Hreach) as Hsol.
  pose proof (tree_inv_reachable _ _ _ _ Hok Hreach) as Htree.
  apply step_inv in Hstep as (w & p' & s' & w' & Hw & Hts & ->).
  assert (Hlen : tid t < length (workers g)) by (by eapply lookup_lt_Some).
  destruct (inv_refs _ _ _ _ _ Htree _ _ Hw) as [_ _ Hverdict Hsolved].
  assert (Hexcl : forall j wj, workers g !! j = Some wj ->
            holds_lock (pc w) = true -> holds_lock (pc wj) = true ->
            j = tid t).
  { intros j wj Hwj Hh Hhj.
    pose proof (inv_owner _ _ _ _ (Hsol _ _ Hwj) Hhj).
    pose proof (inv_owner _ _ _ _ (Hsol _ _ Hw) Hh). congruence. }
  assert (Hothers : forall j wj,
            <[tid t := w']> (workers g) !! j = Some wj ->
            pc wj = ExactSetSol -> holds_lock (pc w) = true ->
            pc w' <> ExactSetSol \/ j <> tid t ->
            j <> tid t /\ workers g !! j = Some wj).
  { intros j wj Hwj Hpcj Hh Hcase.
    destruct (decide (j = tid t)) as [->|Hne].
    - rewrite list_lookup_insert_eq in Hwj by done.
      inversion Hwj; subst wj. by destruct Hcase.
    - by rewrite list_lookup_insert_ne in Hwj by done. }
  unfold dif_write. rewrite Hw.
  destruct (decide (pc w = ExactSetDif)) as [Hpc|Hn1].
  { unfold threadSolve_step in Hts. rewrite Hpc in Hts |- *.
    inversion Hts; subst; clear Hts. simpl. split; simpl.
    - intros j wj Hwj Hpcj. rewrite last_snoc.
      destruct (decide (j = tid t)) as [->|Hne].
      + rewrite list_lookup_insert_eq in Hwj by done. by inversion Hwj.
      + rewrite list_lookup_insert_ne in Hwj by done.
        destruct Hne. eapply Hexcl; [exact Hwj | by rewrite Hpc |].
        by rewrite Hpcj.
    - intros i d. rewrite last_snoc. intros Hlast.
      inversion Hlast; subst. left. eexists.
      by rewrite list_lookup_insert_eq by done.
    - rewrite length_insert. intros Hone w0 Hw0 [Hsome | Hunl].
      + assert (Htid : tid t = 0) by lia.
        rewrite Htid in Hw.
        destruct (Halone Hone _ Hw (or_introl Hsome)) as [_ [?|?]];
          congruence.
      + assert (Htid : tid t = 0) by lia. rewrite Htid in Hw0.
        rewrite list_lookup_insert_eq in Hw0 by lia.
        by inversion Hw0; subst. }
  destruct (decide (pc w = ApproxSetDif)) as [Hpc|Hn2].
  { unfold threadSolve_step in Hts. rewrite Hpc in Hts |- *.
    inversion Hts; subst; clear Hts. simpl. split; simpl.
    - intros j wj Hwj Hpcj. rewrite last_snoc.
      destruct (Hothers j wj Hwj Hpcj) as [Hne Hwj'];
        [by rewrite Hpc | by left |].
      destruct Hne. eapply Hexcl; [exact Hwj' | by rewrite Hpc |].
      by rewrite Hpcj.
    - intros i d. rewrite last_snoc. discriminate.
    - rewrite length_insert. intros Hone w0 Hw0 [Hsome | Hunl].
      + assert (Htid : tid t = 0) by lia.
        rewrite Htid in Hw.
        destruct (Halone Hone _ Hw (or_introl Hsome)) as [_ [?|?]];
          congruence.
      + assert (Htid : tid t = 0) by lia. rewrite Htid in Hw0.
        rewrite list_lookup_insert_eq in Hw0 by lia.
        by inversion Hw0; subst. }
  destruct (decide (pc w = ExactSetSol)) as [Hpc|Hn3].
  { pose proof (Hpend _ _ Hw Hpc) as Hmine.
    unfold threadSolve_step in Hts. rewrite Hpc in Hts |- *.
    inversion Hts; subst; clear Hts. simpl. rewrite app_nil_r.
    split; simpl.
    - intros j wj Hwj Hpcj.
      destruct (Hothers j wj Hwj Hpcj) as [Hne Hwj'];
        [by rewrite Hpc | by left |].
      by apply Hpend.
    - intros i d Hlast. rewrite Hmine in Hlast.
      inversion Hlast; subst i d. right.
      rewrite Hpc in Hverdict, Hsolved.
      destruct (Hverdict eq_refl) as (mo & Hmo & Hsat).
      rewrite (Hsolved eq_refl) in Hsat. by exists (motion w), mo.
    - rewrite length_insert. intros Hone w0 Hw0 _.
      assert (Htid : tid t = 0) by lia. rewrite Htid in *.
      rewrite list_lookup_insert_eq in Hw0 by lia.
      inversion Hw0; subst w0. split; [by eexists | by left]. }
  assert (Hnow : option_list
                   match pc w with
                   | ExactSetDif => Some (ExactWrite (tid t) (dist w))
                   | ApproxSetDif => Some (ApproxWrite (tid t) (dist w))
                   | _ => None
                   end = []) by (by destruct (pc w)).
  rewrite Hnow, app_nil_r. clear Hnow.
  assert (Hfacts : solution s' = solution (sol g) /\
                   pc w' <> ExactSetSol /\ pc w' <> ExactUnlock /\
                   (pc w = ExactUnlock -> pc w' = Returned) /\
                   forall m mo, m_nn (self g) !! m = Some mo ->
                                m_nn p' !! m = Some mo).
  { unfold threadSolve_step in Hts.
    destruct (pc w) eqn:Hpc; repeat case_match; simplify_eq; simpl;
      repeat split; try done.
    intros m mo Hm. by apply lookup_app_l_Some. }
  destruct Hfacts as (Hsolution & Hnot1 & Hnot2 & Hunlock & Hnn).
  split; simpl.
  - intros j wj Hwj Hpcj.
    destruct (decide (j = tid t)) as [->|Hne].
    + rewrite list_lookup_insert_eq in Hwj by done. by inversion Hwj; subst.
    + rewrite list_lookup_insert_ne in Hwj by done. by apply Hpend.
  - intros i d Hlast.
    destruct (Hrec i d Hlast) as [(w0 & Hw0 & Hpc0 & Hd) |
                                   (m & mo & Hs & Hm & Hsat)].
    + left. exists w0. split; [|done].
      rewrite list_lookup_insert_ne; [done|].
      intros <-. rewrite Hw in Hw0. by inversion Hw0; subst.
    + right. exists m, mo. rewrite Hsolution. auto.
  - rewrite length_insert. intros Hone w0 Hw0 Hcase.
    assert (Htid : tid t = 0) by lia. rewrite Htid in *.
    rewrite list_lookup_insert_eq in Hw0 by lia.
    inversion Hw0; subst w0; clear Hw0. rewrite Hsolution in Hcase.
    destruct Hcase as [Hsome | Hunl]; [|done].
    destruct (Halone Hone _ Hw (or_introl Hsome)) as [Hd [Hu|Hr]].
    + split; [done|]. right. by apply Hunlock.
    + unfold threadSolve_step in Hts. by rewrite Hr in Hts.
Qed.

Lemma write_inv_run goal endTime (p : pRRT) (sched : list Tick) (g : World) :
  planner_ok p ->
  run goal endTime sched (launch p) = Some g ->
  write_inv goal (dif_writes goal endTime sched (launch p)) g.
Proof.
  intros Hok. revert g.
  induction sched as [|t sched IH] using rev_ind; intros g Hrun.
  - simpl in Hrun. inversion Hrun; subst. apply write_inv_launch.
  - rewrite run_app in Hrun.
    destruct (run goal endTime sched (launch p)) as [g1|] eqn:H1; [|done].
    simpl in Hrun.
    destruct (step goal endTime t g1) as [g2|] eqn:H2; [|done].
    inversion Hrun; subst g2.
    rewrite (dif_writes_app _ _ _ _ _ _ H1). simpl. rewrite H2, app_nil_r.
    eapply write_inv_step; [done | by exists sched | by apply IH | done].
Qed.

(** C9 (as amended).  In a completed call of [solve], a worker that has
    found an exact solution stores the goal distance of that node in the
    distance field without comparing it with the stored value; and the
    distance that [solve] hands to [setDifference] is the one stored by the
    last write to the field in that call, exact or approximate.  When no
    approximate update is committed after the last exact write, this is the
    last exact writer's distance, the goal distance of the exact solution
    that [solve] reports, whatever smaller distance had been recorded
    before; and it is always so with a single worker. *)
Theorem exact_write_and_reported_distance goal (p : pRRT)
    (solveTime now0 : Q) (sched : list Tick) (g : World) :
  planner_ok p ->
  getGoal m_pdef = Some goal ->
  let p1 := seed (emit p [TimeNow]) in
  let p2 := emit p1 [MsgInform "Starting with %u states"
                               (length (m_nn p1))] in
  let endTime := (now0 + solveTime)%Q in
  let last_written :=
    match last (dif_writes goal endTime sched (launch p2)) with
    | Some wr => written wr
    | None => dinf
    end in
  m_nn p1 <> [] ->
  run goal endTime sched (launch p2) = Some g ->
  forallb has_returned (workers g) = true ->
  exists p',
    solve p solveTime now0 sched = Some (p', isAchieved p') /\
    (forall s1 t s2 g1 w,
       sched = s1 ++ t :: s2 ->
       run goal endTime s1 (launch p2) = Some g1 ->
       workers g1 !! tid t = Some w -> pc w = ExactSetDif ->
       exists g2 mo,
         step goal endTime t g1 = Some g2 /\
         approxdif (sol g2) = dist w /\
         m_nn (self g1) !! motion w = Some mo /\
         isSatisfied goal (state mo) = (true, dist w)) /\
    (forall d, SetDifference d ∈ drop (length (events p)) (events p') ->
               d = last_written) /\
    (final_solution (sol g) <> None ->
     SetDifference last_written ∈ drop (length (events p)) (events p')) /\
    (forall i d,
       last (dif_writes goal endTime sched (launch p2))
         = Some (ExactWrite i d) ->
       SetDifference d ∈ drop (length (events p)) (events p') /\
       exists m mo, solution (sol g) = Some m /\
                    m_nn (self g) !! m = Some mo /\
                    isSatisfied goal (state mo) = (true, d)) /\
    (m_threadCount p = 1 -> solution (sol g) <> None ->
     exists d, last (dif_writes goal endTime sched (launch p2))
               = Some (ExactWrite 0 d)).
Proof.
  intros Hok Hgoal p1 p2 endTime last_written Hne Hrun Hret.
  assert (Hall : forall i w, workers g !! i = Some w -> pc w = Returned).
  { intros i w Hw. apply list_elem_of_lookup_2 in Hw.
    rewrite forallb_forall in Hret. apply list_elem_of_In in Hw.
    specialize (Hret _ Hw). by apply bool_decide_eq_true in Hret. }
  assert (Hok2 : planner_ok p2)
    by (by apply (seed_planner_ok (emit p [TimeNow]))).
  assert (Hinv : tree_inv goal p2 g)
    by (apply (tree_inv_reachable _ endTime); [done | by exists sched]).
  destruct (resolve_total _ _ _ Hinv) as [[p' Hres] Hwalk].
  destruct (resolve_inv _ _ Hres) as (_ & _ & Hev).
  assert (Hlast : approxdif (sol g) = last_written)
    by apply (run_approxdif_last_write _ _ _ _ _ Hrun).
  rewrite (inv_events _ _ _ _ _ Hinv) in Hev.
  change (events p2)
    with (events p1 ++ [MsgInform "Starting with %u states"
                                  (length (m_nn p1))]) in Hev.
  destruct (seed_spec (emit p [TimeNow])) as (_ & H2 & _).
  fold p1 in H2. rewrite H2 in Hev. simpl in Hev.
  rewrite <- !app_assoc in Hev.
  assert (Hreach : reachable goal endTime p2 g) by (by exists sched).
  pose proof (write_inv_run _ _ _ _ _ Hok2 Hrun) as Hwrites.
  exists p'. split; [by eapply solve_complete|].
  rewrite Hev, drop_app_length. clear Hev H2.
  repeat split.
  - intros s1 t s2 g1 w -> Hrun1 Hw Hpc.
    assert (Hinv1 : tree_inv goal p2 g1)
      by (apply (tree_inv_reachable _ endTime); [done | by exists s1]).
    destruct (inv_refs _ _ _ _ _ Hinv1 _ _ Hw) as [_ _ Hverdict Hsolved].
    rewrite Hpc in Hverdict, Hsolved.
    destruct (Hverdict eq_refl) as (mo & Hmo & Hsat).
    rewrite (Hsolved eq_refl) in Hsat.
    unfold step, threadSolve_step. rewrite Hw, Hpc.
    eexists _, mo. by repeat split.
  - intros d Hd. rewrite <- Hlast.
    destruct (final_solution (sol g)) as [m|] eqn:Hm.
    + destruct (Hwalk m eq_refl) as (mo & mpath & root & _ & Hw & _).
      rewrite Hw in Hd.
      destruct (bool_decide (solution (sol g) = None));
        event_cases Hd; by simplify_eq.
    + event_cases Hd.
  - intros Hsome. rewrite <- Hlast.
    destruct (final_solution (sol g)) as [m|] eqn:Hm; [|done].
    destruct (Hwalk m eq_refl) as (mo & mpath & root & _ & Hw & _).
    rewrite Hw. simpl. find_event.
  - assert (Hd : approxdif (sol g) = d).
    { rewrite Hlast. unfold last_written. by rewrite H. }
    rewrite <- Hd.
    destruct (wr_recorded _ _ _ Hwrites _ _ H)
      as [(w & Hw & Hpc & _) | (m & mo & Hs & _)].
    { rewrite (Hall _ _ Hw) in Hpc. discriminate. }
    unfold final_solution. rewrite Hs.
    assert (Hfin : final_solution (sol g) = Some m)
      by (unfold final_solution; by rewrite Hs).
    destruct (Hwalk m Hfin) as (mo' & mpath & root & _ & Hw & _).
    rewrite Hw. simpl. find_event.
  - destruct (wr_recorded _ _ _ Hwrites _ _ H)
      as [(w & Hw & Hpc & _) | Hdone]; [|done].
    rewrite (Hall _ _ Hw) in Hpc. discriminate.
  - intros Hone Hsome.
    assert (Hlen : length (workers g) = 1).
    { destruct Hreach as [sched' Hrun'].
      erewrite run_workers_length by exact Hrun'. simpl.
      rewrite length_replicate.
      destruct (seed_spec (emit p [TimeNow])) as (_ & _ & H3 & _).
      simpl in H3. unfold p1. by rewrite H3. }
    destruct (workers g) as [|w ws] eqn:Hws; [done|].
    destruct (wr_alone _ _ _ Hwrites) with (w := w) as [Hd _];
      rewrite ?Hws; try done. by left.
Qed.

(** The invariant of the planner object: it holds of a planner with an
    empty tree and [solve] preserves it. *)
Lemma planner_ok_empty (p : pRRT) : m_nn p = [] -> planner_ok p.
Proof. intros Hnil. split; intros i mo; by rewrite Hnil. Qed.

Lemma solve_planner_ok (p p' : pRRT) (solveTime now0 : Q)
    (sched : list Tick) (b : bool) :
  planner_ok p -> solve p solveTime now0 sched = Some (p', b) ->
  planner_ok p'.
Proof.
  intros Hok Hsolve.
  destruct (getGoal m_pdef) as [goal|] eqn:Hgoal.
  - assert (Hok1 : planner_ok (seed (emit p [TimeNow])))
      by (by apply seed_planner_ok).
    destruct (solve_inv _ _ _ _ _ _ _ Hgoal Hsolve)
      as [(_ & _ & ->) | (_ & g & Hrun & _ & Hres & _)]; [done|].
    destruct (resolve_inv _ _ Hres) as (Hnn & _).
    unfold planner_ok. rewrite Hnn.
    destruct (tree_inv_reachable goal (now0 + solveTime)%Q
                (emit (seed (emit p [TimeNow]))
                      [MsgInform "Starting with %u states"
                         (length (m_nn (seed (emit p [TimeNow]))))]) g)
      as [Htree Hroots _ _ _ _ _ _]; [exact Hok1 | by exists sched |].
    by split.
  - unfold solve in Hsolve. rewrite Hgoal in Hsolve. by inversion Hsolve.
Qed.

(** ** Listing the states *)

Lemma length_resize (states : list (option State)) (n : nat) :
  length (resize states n) = n.
Proof.
  unfold resize. rewrite length_app, length_take, length_replicate. lia.
Qed.

Lemma assign_states_spec (motions : list Motion) (i : nat)
    (pre xs : list (option State)) :
  length pre = i -> length xs = length motions ->
  assign_states motions i (pre ++ xs)
  = pre ++ ((fun mo => Some (state mo)) <$> motions).
Proof.
  revert i pre xs.
  induction motions as [|mo motions IH]; intros i pre xs Hpre Hxs.
  - destruct xs; [done | discriminate].
  - destruct xs as [|x xs]; [discriminate|]. simpl.
    rewrite insert_app_r_alt by lia.
    replace (i - length pre) with 0 by lia. simpl.
    rewrite (cons_middle _ pre xs), app_assoc.
    rewrite IH.
    + by rewrite <- app_assoc.
    + rewrite length_app. simpl. lia.
    + simpl in Hxs. lia.
Qed.

Lemma getStates_spec (p : pRRT) (states : list (option State)) :
  getStates p states = (fun mo => Some (state mo)) <$> m_nn p.
Proof.
  unfold getStates.
  apply (assign_states_spec (m_nn p) 0 [] (resize states (length (m_nn p)))).
  - done.
  - apply length_resize.
Qed.

(** C10.  [getStates] returns the states of the nodes of the tree, in the
    order of the tree, whatever the vector it is given holds; called a
    second time on the planner, which it cannot change, it returns the same
    sequence. *)
Theorem getStates_twice (p : pRRT) (states states' : list (option State)) :
  getStates p states = (fun mo => Some (state mo)) <$> m_nn p /\
  getStates p (getStates p states) = getStates p states /\
  getStates p states' = getStates p states.
Proof. by rewrite !getStates_spec. Qed.

(** * Further properties *)

(** ** The two mutexes *)

(** X1.  Two workers are never both between [sol->lock.lock()] and
    [sol->lock.unlock()]. *)
Theorem sol_lock_mutual_exclusion goal endTime (p : pRRT) (g : World)
    (i j : nat) (wi wj : Worker) :
  reachable goal endTime p g ->
  workers g !! i = Some wi -> workers g !! j = Some wj ->
  holds_lock (pc wi) = true -> holds_lock (pc wj) = true ->
  i = j.
Proof.
  intros Hreach Hi Hj Hhi Hhj. apply sol_inv_reachable in Hreach.
  pose proof (inv_owner _ _ _ _ (Hreach _ _ Hi) Hhi) as Hli.
  pose proof (inv_owner _ _ _ _ (Hreach _ _ Hj) Hhj) as Hlj.
  congruence.
Qed.

Lemma nn_inv_launch (p : pRRT) : m_nnLock p = None -> nn_inv (launch p).
Proof.
  intros Hfree. split; simpl.
  - intros i w Hw. apply lookup_replicate_1 in Hw as [-> _]. done.
  - intros i Hi. congruence.
Qed.

Lemma nn_inv_step goal endTime (t : Tick) (g g' : World) :
  nn_inv g -> step goal endTime t g = Some g' -> nn_inv g'.
Proof.
  intros [Hown Howned] Hstep.
  apply step_inv in Hstep as (w & p' & s' & w' & Hw & Hts & ->).
  assert (Hlen : tid t < length (workers g)) by (by eapply lookup_lt_Some).
  pose proof (Hown _ _ Hw) as Ho.
  split; simpl.
  - intros i wi Hwi.
    destruct (decide (i = tid t)) as [->|Hne].
    + rewrite list_lookup_insert_eq in Hwi by done.
      inversion Hwi; subst wi; clear Hwi.
      unfold threadSolve_step in Hts.
      destruct (pc w) eqn:Hpc; repeat case_match; simplify_eq;
        simpl; intros; try done; auto.
    + rewrite list_lookup_insert_ne in Hwi by done.
      pose proof (Hown _ _ Hwi) as Hoi.
      unfold threadSolve_step in Hts.
      destruct (pc w) eqn:Hpc; repeat case_match; simplify_eq;
        simpl; intros Hh; auto.
      all: specialize (Hoi Hh); try specialize (Ho eq_refl); congruence.
  - intros i Hi.
    assert (Hkeep : m_nnLock p' = m_nnLock (self g) ->
                    holds_nnLock (pc w) = holds_nnLock (pc w') ->
                    exists wi, <[tid t := w']> (workers g) !! i = Some wi /\
                               holds_nnLock (pc wi) = true).
    { intros Hlock Hpc. rewrite Hlock in Hi.
      destruct (Howned i Hi) as (wi & Hwi & Hhold).
      destruct (decide (i = tid t)) as [->|Hne].
      - exists w'. rewrite list_lookup_insert_eq by done.
        rewrite Hw in Hwi. inversion Hwi; subst wi. by rewrite <- Hpc.
      - exists wi. by rewrite list_lookup_insert_ne. }
    assert (Htake : m_nnLock p' = Some (tid t) ->
                    holds_nnLock (pc w') = true ->
                    exists wi, <[tid t := w']> (workers g) !! i = Some wi /\
                               holds_nnLock (pc wi) = true).
    { intros Hlock Hpc. rewrite Hlock in Hi. inversion Hi; subst i.
      exists w'. by rewrite list_lookup_insert_eq. }
    unfold threadSolve_step in Hts.
    destruct (pc w) eqn:Hpc; repeat case_match; simplify_eq;
      try (by apply Hkeep; rewrite ?Hpc);
      try (by apply Htake).
Qed.

Lemma nn_inv_reachable goal endTime (p : pRRT) (g : World) :
  m_nnLock p = None -> reachable goal endTime p g -> nn_inv g.
Proof.
  intros Hfree. revert g. apply reachable_ind.
  - by apply nn_inv_launch.
  - intros g t g' _ Hinv Hstep. by eapply nn_inv_step.
Qed.

(** X2.  When [m_nnLock] is free at the launch, two workers are never both
    between [m_nnLock.lock()] and [m_nnLock.unlock()]: a nearest-neighbour
    query and an insertion, or two insertions, never overlap. *)
Theorem nn_lock_mutual_exclusion goal endTime (p : pRRT) (g : World)
    (i j : nat) (wi wj : Worker) :
  m_nnLock p = None ->
  reachable goal endTime p g ->
  workers g !! i = Some wi -> workers g !! j = Some wj ->
  holds_nnLock (pc wi) = true -> holds_nnLock (pc wj) = true ->
  i = j.
Proof.
  intros Hfree Hreach Hi Hj Hhi Hhj.
  destruct (nn_inv_reachable _ _ _ _ Hfree Hreach) as [Hown _].
  pose proof (Hown _ _ Hi Hhi). pose proof (Hown _ _ Hj Hhj). congruence.
Qed.

Lemma locks_free_after_join_aux goal endTime (p : pRRT) (g : World) :
  m_nnLock p = None ->
  reachable goal endTime p g ->
  forallb has_returned (workers g) = true ->
  lock (sol g) = None /\ m_nnLock (self g) = None.
Proof.
  intros Hfree Hreach Hret.
  assert (Hall : forall i w, workers g !! i = Some w -> pc w = Returned).
  { intros i w Hw. apply list_elem_of_lookup_2 in Hw.
    rewrite forallb_forall in Hret. apply list_elem_of_In in Hw.
    specialize (Hret _ Hw). by apply bool_decide_eq_true in Hret. }
  split.
  - destruct (lock (sol g)) as [i|] eqn:Hl; [|done].
    destruct (lock_inv_reachable _ _ _ _ Hreach i Hl) as (w & Hw & Hh).
    rewrite (Hall _ _ Hw) in Hh. discriminate.
  - destruct (m_nnLock (self g)) as [i|] eqn:Hl; [|done].
    destruct (nn_inv_reachable _ _ _ _ Hfree Hreach) as [_ Howned].
    destruct (Howned i Hl) as (w & Hw & Hh).
    rewrite (Hall _ _ Hw) in Hh. discriminate.
Qed.

(** X12.  When [m_nnLock] is free at the launch, both mutexes are free once
    every worker has returned: no worker leaves the loop as owner of a
    lock. *)
Theorem locks_free_after_join goal endTime (p : pRRT) (g : World) :
  m_nnLock p = None ->
  reachable goal endTime p g ->
  forallb has_returned (workers g) = true ->
  lock (sol g) = None /\ m_nnLock (self g) = None.
Proof. apply locks_free_after_join_aux. Qed.

(** ** What the workers leave unchanged *)

Local Abbreviation count_adds := (count_adds si m_rho m_goalBias nearest).

(** One statement changes neither the counters nor the log of the planner;
    it appends at most one node to the tree, and that node has a parent. *)
Lemma step_frame goal endTime (t : Tick) (g g' : World) :
  step goal endTime t g = Some g' ->
  m_addedStartStates (self g') = m_addedStartStates (self g) /\
  m_threadCount (self g') = m_threadCount (self g) /\
  events (self g') = events (self g) /\
  length (workers g') = length (workers g) /\
  exists l, m_nn (self g') = m_nn (self g) ++ l /\
            length l = (if is_add t g then 1 else 0) /\
            Forall (fun mo => parent mo <> None) l.
Proof.
  intros Hstep.
  apply step_inv in Hstep as (w & p' & s' & w' & Hw & Hts & ->).
  unfold is_add. rewrite Hw. simpl. rewrite length_insert.
  unfold threadSolve_step in Hts.
  destruct (pc w) eqn:Hpc; repeat case_match; simplify_eq; simpl;
    repeat split; try done;
    try (exists []; by rewrite app_nil_r).
  eexists. split; [done|]. split; [done|]. by repeat constructor.
Qed.

Lemma run_frame goal endTime (sched : list Tick) (g g' : World) :
  run goal endTime sched g = Some g' ->
  m_addedStartStates (self g') = m_addedStartStates (self g) /\
  m_threadCount (self g') = m_threadCount (self g) /\
  events (self g') = events (self g) /\
  length (workers g') = length (workers g) /\
  exists l, m_nn (self g') = m_nn (self g) ++ l /\
            length l = count_adds goal endTime sched g /\
            Forall (fun mo => parent mo <> None) l.
Proof.
  revert g. induction sched as [|t sched IH]; intros g Hrun; simpl in *.
  - inversion Hrun; subst. repeat split; try done.
    exists []. by rewrite app_nil_r.
  - destruct (step goal endTime t g) as [g1|] eqn:Hstep; [|done].
    destruct (step_frame _ _ _ _ _ Hstep)
      as (H1 & H2 & H3 & H4 & l1 & H5 & H6 & H7).
    destruct (IH _ Hrun) as (I1 & I2 & I3 & I4 & l2 & I5 & I6 & I7).
    repeat split; try congruence.
    exists (l1 ++ l2). rewrite I5, H5, <- app_assoc, length_app, H6, I6.
    repeat split; try done. by apply Forall_app.
Qed.

Lemma resolve_nnLock (g : World) (p' : pRRT) :
  resolve g = Some p' ->
  m_nnLock p' = m_nnLock (self g) /\
  m_threadCount p' = m_threadCount (self g).
Proof.
  unfold resolve. intros Hres. by repeat case_match; simplify_eq.
Qed.

(** X8.  [setThreadCount(n)] with [n > 0] sets the thread count, resizes
    [m_sCoreArray] to [n] places of which it keeps the first ones, and leaves
    the tree alone; in every execution launched afterwards the identity of
    the thread that executes a statement is a valid index into
    [m_sCoreArray]. *)
Theorem setThreadCount_bounds_thread_ids (Core : Type) (blank : Core)
    (n : nat) (p : pRRT) (cores : list Core) :
  0 < n ->
  exists p' cores',
    setThreadCount blank n p cores = Some (p', cores') /\
    m_threadCount p' = n /\ m_nn p' = m_nn p /\
    m_addedStartStates p' = m_addedStartStates p /\
    length cores' = n /\
    (forall i, i < n -> i < length cores -> cores' !! i = cores !! i) /\
    (forall goal endTime sched t g g',
       run goal endTime sched (launch p') = Some g ->
       step goal endTime t g = Some g' ->
       tid t < length cores').
Proof.
  intros Hn. unfold setThreadCount.
  destruct (Nat.ltb_spec 0 n) as [_|]; [|lia].
  eexists _, _. split; [done|]. simpl.
  assert (Hlen : length (take n cores ++ replicate (n - length cores) blank)
                 = n)
    by (rewrite length_app, length_take, length_replicate; lia).
  repeat split; try done.
  - intros i Hi Hlt. rewrite lookup_app_l by (rewrite length_take; lia).
    by rewrite lookup_take_lt.
  - intros goal endTime sched t g g' Hrun Hstep. rewrite Hlen.
    destruct (run_frame _ _ _ _ _ Hrun) as (_ & _ & _ & Hw & _).
    simpl in Hw. rewrite length_replicate in Hw.
    apply step_inv in Hstep as (w & _ & _ & _ & Hlook & _).
    apply lookup_lt_Some in Hlook. lia.
Qed.

Lemma seed_added (p : pRRT) :
  getStartStateCount m_pdef <= m_addedStartStates (seed p).
Proof.
  unfold seed.
  destruct (decide (m_addedStartStates p <= getStartStateCount m_pdef))
    as [Hle|Hgt].
  - destruct (seed_loop_spec
                (getStartStateCount m_pdef - m_addedStartStates p) p)
      as (_ & _ & H3 & _); lia.
  - replace (getStartStateCount m_pdef - m_addedStartStates p) with 0 by lia.
    simpl. lia.
Qed.

(** X9.  Start states are looked at once: after a call of [solve] on a
    problem with a goal, no start state is left to add, and the seeding loop
    of a later call neither changes the planner nor logs again the errors of
    the rejected start states. *)
Theorem start_states_seeded_once goal (p p' : pRRT) (solveTime now0 : Q)
    (sched : list Tick) (b : bool) :
  getGoal m_pdef = Some goal ->
  solve p solveTime now0 sched = Some (p', b) ->
  getStartStateCount m_pdef <= m_addedStartStates p' /\
  pending_starts p' = [] /\
  forall evs, seed (emit p' evs) = emit p' evs.
Proof.
  intros Hgoal Hsolve.
  assert (Hcount : getStartStateCount m_pdef <= m_addedStartStates p').
  { pose proof (seed_added (emit p [TimeNow])) as Hseed.
    destruct (solve_inv _ _ _ _ _ _ _ Hgoal Hsolve)
      as [(_ & _ & ->) | (_ & g & Hrun & _ & Hres & _)]; [done|].
    destruct (resolve_inv _ _ Hres) as (_ & Hadd & _).
    destruct (run_frame _ _ _ _ _ Hrun) as (Hadd' & _).
    rewrite Hadd, Hadd'. exact Hseed. }
  split; [done|]. split.
  - unfold pending_starts. apply drop_ge. exact Hcount.
  - intros evs. unfold seed. simpl.
    by replace (getStartStateCount m_pdef - m_addedStartStates p') with 0
      by lia.
Qed.

(** ** The motions of the tree *)

Local Abbreviation edges_ok := (edges_ok si).
Local Abbreviation edge_inv := (edge_inv si).
Local Abbreviation chain_ok := (chain_ok si).

Lemma edges_ok_snoc (nn : list Motion) (mo : Motion) :
  edges_ok nn ->
  (forall j, parent mo = Some j ->
     exists pm, nn !! j = Some pm /\
                checkMotion si (state pm) (state mo) = true) ->
  edges_ok (nn ++ [mo]).
Proof.
  intros Hok Hmo i mo' j Hi Hp.
  assert (Hold : exists pm, nn !! j = Some pm /\
                            checkMotion si (state pm) (state mo') = true).
  { destruct (decide (i < length nn)) as [Hlt|Hge].
    - rewrite lookup_app_l in Hi by done. by eapply Hok.
    - rewrite lookup_app_r in Hi by lia.
      apply list_lookup_singleton_Some in Hi as [_ ->]. by apply Hmo. }
  destruct Hold as (pm & Hpm & Hcheck). exists pm.
  split; [by apply lookup_app_l_Some | done].
Qed.

Lemma seed_edges_ok (p : pRRT) : edges_ok (m_nn p) -> edges_ok (m_nn (seed p)).
Proof.
  intros Hok. destruct (seed_spec p) as (Hnn & _). rewrite Hnn. clear Hnn.
  induction (List.filter passes_checks (pending_starts p)) as [|st l IH]
    using rev_ind.
  - simpl. by rewrite app_nil_r.
  - rewrite fmap_app, app_assoc. simpl.
    apply edges_ok_snoc; [done|]. by intros j.
Qed.

Lemma edge_inv_launch (p : pRRT) : edges_ok (m_nn p) -> edge_inv (launch p).
Proof.
  intros Hok. split; simpl; [done|].
  intros i w Hw. apply lookup_replicate_1 in Hw as [-> _]. done.
Qed.

Lemma edge_inv_step goal endTime (t : Tick) (g g' : World) :
  edge_inv g -> step goal endTime t g = Some g' -> edge_inv g'.
Proof.
  intros [Htree Hchecked] Hstep.
  apply step_inv in Hstep as (w & p' & s' & w' & Hw & Hts & ->).
  pose proof (Hchecked _ _ Hw) as Hc.
  assert (Hlen : tid t < length (workers g)) by (by eapply lookup_lt_Some).
  unfold threadSolve_step in Hts.
  destruct (pc w) eqn:Hpc; repeat case_match; simplify_eq;
    split; simpl; try done.
  all: try (intros i wi Hwi;
            destruct (decide (i = tid t)) as [->|Hne];
            [ rewrite list_lookup_insert_eq in Hwi by done;
              inversion Hwi; subst wi; clear Hwi; simpl; try done
            | rewrite list_lookup_insert_ne in Hwi by done;
              try exact (Hchecked _ _ Hwi) ]).
  all: try (by intros _; eexists).
  all: try (by auto).
  - apply edges_ok_snoc; [done|]. simpl. intros j Hj.
    inversion Hj; subst. by apply Hc.
  - intros Hh. destruct (Hchecked _ _ Hwi Hh) as (nm & Hnm & Hcheck).
    exists nm. split; [by apply lookup_app_l_Some | done].
Qed.

Lemma edge_inv_reachable goal endTime (p : pRRT) (g : World) :
  edges_ok (m_nn p) -> reachable goal endTime p g -> edge_inv g.
Proof.
  intros Hok. revert g. apply reachable_ind.
  - by apply edge_inv_launch.
  - intros g t g' _ Hinv Hstep. by eapply edge_inv_step.
Qed.

(** The walk starts at the node it is given. *)
Lemma walk_head (fuel : nat) (nn : list Motion) (cur : option nat)
    (x : Motion) (rest : list Motion) :
  walk fuel nn cur = Some (x :: rest) ->
  exists j, cur = Some j /\ nn !! j = Some x.
Proof.
  destruct cur as [j|]; [|by destruct fuel].
  destruct fuel as [|fuel]; [done|]. simpl.
  destruct (nn !! j) as [mo|] eqn:Hmo; [|done].
  destruct (walk fuel nn (parent mo)); [|done].
  intros H. inversion H; subst. by exists j.
Qed.

(** In the walk, every node is followed by its parent. *)
Lemma walk_chain (nn : list Motion) :
  edges_ok nn ->
  forall fuel cur mpath, walk fuel nn cur = Some mpath ->
    forall k c pa, mpath !! k = Some c -> mpath !! S k = Some pa ->
                   checkMotion si (state pa) (state c) = true.
Proof.
  intros Hok. induction fuel as [|fuel IH]; intros cur mpath Hwalk k c pa Hc Hpa.
  - destruct cur; [done|]. simpl in Hwalk. inversion Hwalk; subst. done.
  - destruct cur as [m|]; [|simpl in Hwalk; inversion Hwalk; by subst].
    simpl in Hwalk.
    destruct (nn !! m) as [mo|] eqn:Hmo; [|done].
    destruct (walk fuel nn (parent mo)) as [mpath'|] eqn:Hrest; [|done].
    inversion Hwalk; subst mpath; clear Hwalk.
    destruct k as [|k].
    + simpl in Hc, Hpa. inversion Hc; subst c.
      destruct mpath' as [|x rest]; [done|].
      simpl in Hpa. inversion Hpa; subst x.
      destruct (walk_head _ _ _ _ _ Hrest) as (j & Hj & Hlook).
      destruct (Hok _ _ _ Hmo Hj) as (pm & Hpm & Hcheck).
      rewrite Hlook in Hpm. by inversion Hpm; subst.
    + simpl in Hc, Hpa. by eapply IH.
Qed.

Lemma chain_ok_path_of (nn : list Motion) (fuel : nat) (cur : option nat)
    (mpath : list Motion) :
  edges_ok nn -> walk fuel nn cur = Some mpath -> chain_ok (path_of mpath).
Proof.
  intros Hok Hwalk k a b Ha Hb.
  unfold path_of, copyState in Ha, Hb.
  rewrite list_lookup_fmap in Ha, Hb.
  assert (Hlt : S k < length mpath).
  { destruct (reverse mpath !! S k) eqn:Hr; [|done].
    apply lookup_lt_Some in Hr. by rewrite length_reverse in Hr. }
  rewrite reverse_lookup in Ha by lia.
  rewrite reverse_lookup in Hb by lia.
  destruct (mpath !! (length mpath - S k)) as [pa|] eqn:Hpa; [|done].
  destruct (mpath !! (length mpath - S (S k))) as [c|] eqn:Hc; [|done].
  simpl in Ha, Hb. inversion Ha; inversion Hb; subst.
  eapply (walk_chain _ Hok _ _ _ Hwalk (length mpath - S (S k))); [done|].
  by replace (S (length mpath - S (S k))) with (length mpath - S k) by lia.
Qed.

(** A path that [solve] hands to the goal comes from the walk that starts
    at the solution node of the joined workers. *)
Lemma reported_path_inv goal (p p' : pRRT) (solveTime now0 : Q)
    (sched : list Tick) (b : bool) (path : list State) (approx : bool) :
  planner_ok p ->
  getGoal m_pdef = Some goal ->
  solve p solveTime now0 sched = Some (p', b) ->
  SetSolutionPath path approx ∈ drop (length (events p)) (events p') ->
  let p1 := seed (emit p [TimeNow]) in
  let p2 := emit p1 [MsgInform "Starting with %u states"
                               (length (m_nn p1))] in
  exists g m mo mpath,
    run goal (now0 + solveTime)%Q sched (launch p2) = Some g /\
    forallb has_returned (workers g) = true /\
    final_solution (sol g) = Some m /\
    approx = bool_decide (solution (sol g) = None) /\
    m_nn (self g) !! m = Some mo /\
    walk (length (m_nn (self g))) (m_nn (self g)) (Some m)
      = Some (mo :: mpath) /\
    path = path_of (mo :: mpath) /\
    m_nn p' = m_nn (self g).
Proof.
  intros Hok Hgoal Hsolve Hin p1 p2.
  assert (Hok2 : planner_ok p2)
    by (by apply (seed_planner_ok (emit p [TimeNow]))).
  destruct (seed_spec (emit p [TimeNow])) as (_ & H2 & _). fold p1 in H2.
  destruct (solve_inv _ _ _ _ _ _ _ Hgoal Hsolve)
    as [(Hnil & _ & ->) | (Hne & g & Hrun & Hret & Hres & _)].
  - exfalso. simpl in Hin. fold p1 in Hin. rewrite H2 in Hin. simpl in Hin.
    rewrite <- !app_assoc, drop_app_length in Hin. event_cases Hin.
  - fold p1 p2 in Hrun.
    assert (Hinv : tree_inv goal p2 g)
      by (apply (tree_inv_reachable _ (now0 + solveTime)%Q);
          [done | by exists sched]).
    destruct (resolve_total _ _ _ Hinv) as [_ Hwalk].
    destruct (resolve_inv _ _ Hres) as (Hnn & _ & Hev).
    rewrite (inv_events _ _ _ _ _ Hinv) in Hev.
    change (events p2)
      with (events p1 ++ [MsgInform "Starting with %u states"
                                    (length (m_nn p1))]) in Hev.
    rewrite H2 in Hev. simpl in Hev. rewrite <- !app_assoc in Hev.
    rewrite Hev, drop_app_length in Hin. clear Hev H2.
    destruct (final_solution (sol g)) as [m|] eqn:Hm.
    + destruct (Hwalk m eq_refl) as (mo & mpath & root & Hmo & Hw & _).
      rewrite Hw in Hin. exists g, m, mo, mpath.
      destruct (bool_decide (solution (sol g) = None));
        event_cases Hin; simplify_eq; by repeat split.
    + exfalso. event_cases Hin.
Qed.

(** X4.  When the motions of the tree that [solve] finds have passed
    [checkMotion], so have the motions of every path that [solve] hands to
    the goal: [checkMotion] accepts every two consecutive states of the
    path. *)
Theorem reported_path_motions_valid goal (p p' : pRRT)
    (solveTime now0 : Q) (sched : list Tick) (b : bool)
    (path : list State) (approx : bool) :
  planner_ok p -> edges_ok (m_nn p) ->
  getGoal m_pdef = Some goal ->
  solve p solveTime now0 sched = Some (p', b) ->
  SetSolutionPath path approx ∈ drop (length (events p)) (events p') ->
  chain_ok path.
Proof.
  intros Hok Hedges Hgoal Hsolve Hin.
  destruct (reported_path_inv _ _ _ _ _ _ _ _ _ Hok Hgoal Hsolve Hin)
    as (g & m & mo & mpath & Hrun & _ & _ & _ & _ & Hwalk & -> & _).
  eapply chain_ok_path_of; [|exact Hwalk].
  eapply edge_inv_reachable; [|by exists sched].
  by apply (seed_edges_ok (emit p [TimeNow])).
Qed.

(** X11.  [solve] keeps the planner well formed: when parents are older
    than their children, parentless nodes hold accepted start states, every
    motion of the tree has passed [checkMotion] and [m_nnLock] is free, the
    same holds of the planner that [solve] leaves. *)
Theorem solve_keeps_planner_well_formed (p p' : pRRT) (solveTime now0 : Q)
    (sched : list Tick) (b : bool) :
  planner_ok p -> edges_ok (m_nn p) -> m_nnLock p = None ->
  solve p solveTime now0 sched = Some (p', b) ->
  planner_ok p' /\ edges_ok (m_nn p') /\ m_nnLock p' = None.
Proof.
  intros Hok Hedges Hfree Hsolve.
  destruct (getGoal m_pdef) as [goal|] eqn:Hgoal.
  - assert (Hok1 : planner_ok (seed (emit p [TimeNow])))
      by (by apply seed_planner_ok).
    assert (Hedges1 : edges_ok (m_nn (seed (emit p [TimeNow]))))
      by (by apply seed_edges_ok).
    destruct (seed_spec (emit p [TimeNow])) as (_ & _ & _ & Hfree1).
    simpl in Hfree1. rewrite Hfree in Hfree1.
    destruct (solve_inv _ _ _ _ _ _ _ Hgoal Hsolve)
      as [(_ & _ & ->) | (_ & g & Hrun & Hret & Hres & _)]; [done|].
    destruct (resolve_inv _ _ Hres) as (Hnn & _).
    destruct (resolve_nnLock _ _ Hres) as (Hlock & _).
    set (p2 := emit (seed (emit p [TimeNow]))
                    [MsgInform "Starting with %u states"
                       (length (m_nn (seed (emit p [TimeNow]))))]) in *.
    assert (Hreach : reachable goal (now0 + solveTime)%Q p2 g)
      by (by exists sched).
    assert (Hok2 : planner_ok p2) by exact Hok1.
    assert (Hedges2 : edges_ok (m_nn p2)) by exact Hedges1.
    assert (Hfree2 : m_nnLock p2 = None) by exact Hfree1.
    destruct (tree_inv_reachable _ _ _ _ Hok2 Hreach)
      as [Htree Hroots _ _ _ _ _ _].
    destruct (edge_inv_reachable _ _ _ _ Hedges2 Hreach) as [Hedge _].
    destruct (locks_free_after_join_aux _ _ _ _ Hfree2 Hreach Hret)
      as [_ Hnnfree].
    unfold planner_ok. rewrite Hnn, Hlock.
    split; [by split | by split].
  - unfold solve in Hsolve. rewrite Hgoal in Hsolve. by inversion Hsolve.
Qed.

(** ** What the solution record designates *)

Lemma incumbent_inv_launch goal (p : pRRT) :
  incumbent_inv goal (length (m_nn p)) (launch p).
Proof.
  split; simpl; try done.
  - intros i w Hw. apply lookup_replicate_1 in Hw as [-> _]. done.
  - intros i w Hw. apply lookup_replicate_1 in Hw as [-> _]. done.
  - intros k mo Hk Hlook. apply lookup_lt_Some in Hlook. lia.
Qed.

Lemma incumbent_inv_step goal endTime (p0 : pRRT) (n0 : nat) (t : Tick)
    (g g' : World) :
  tree_inv goal p0 g -> incumbent_inv goal n0 g ->
  step goal endTime t g = Some g' -> incumbent_inv goal n0 g'.
Proof.
  intros Htree [Hsize Hmotion Hunsolved Hparent Hsol Happ] Hstep.
  apply step_inv in Hstep as (w & p' & s' & w' & Hw & Hts & ->).
  destruct (inv_refs _ _ _ _ _ Htree _ _ Hw) as [_ _ Hv Hs].
  pose proof (Hmotion _ _ Hw) as Hmw.
  pose proof (Hunsolved _ _ Hw) as Huw.
  assert (Hlen : tid t < length (workers g)) by (by eapply lookup_lt_Some).
  assert (Hgrow_sol : forall mo' m, solution (sol g) = Some m ->
            n0 <= m /\
            exists mo, (m_nn (self g) ++ [mo']) !! m = Some mo /\
                       (isSatisfied goal (state mo)).1 = true).
  { intros mo' m Hm. destruct (Hsol m Hm) as (Hle & mo & Hmo & Hsat).
    split; [done|]. exists mo. split; [by apply lookup_app_l_Some | done]. }
  assert (Hgrow_app : forall mo' m, approxsol (sol g) = Some m ->
            n0 <= m /\
            exists mo, (m_nn (self g) ++ [mo']) !! m = Some mo /\
                       (isSatisfied goal (state mo)).1 = false).
  { intros mo' m Hm. destruct (Happ m Hm) as (Hle & mo & Hmo & Hsat).
    split; [done|]. exists mo. split; [by apply lookup_app_l_Some | done]. }
  unfold threadSolve_step in Hts.
  destruct (pc w) eqn:Hpc; repeat case_match; simplify_eq;
    split; simpl; try done.
  all: try (intros i wi Hwi;
            destruct (decide (i = tid t)) as [->|Hne];
            [ rewrite list_lookup_insert_eq in Hwi by done;
              inversion Hwi; subst wi; clear Hwi; simpl; try done
            | rewrite list_lookup_insert_ne in Hwi by done;
              first [ exact (Hmotion _ _ Hwi) | exact (Hunsolved _ _ Hwi) ] ]).
  all: try (intros _; first [ by apply Hmw | by apply Huw ]).
  all: try (by rewrite length_app; simpl; lia).
  all: try (by apply Hgrow_sol).
  all: try (by apply Hgrow_app).
  all: try (intros m Hm; apply Hsol; congruence).
  - intros k mo Hk Hlook.
    destruct (decide (k < length (m_nn (self g)))) as [Hlt|Hge].
    + rewrite lookup_app_l in Hlook by done. by eapply Hparent.
    + rewrite lookup_app_r in Hlook by lia.
      apply list_lookup_singleton_Some in Hlook as [_ <-]. done.
  - intros m Hm. inversion Hm; subst m. split; [by apply Hmw|].
    destruct (Hv eq_refl) as (mo & Hmo & Hsat). exists mo.
    split; [done|]. by rewrite Hsat, (Hs eq_refl).
  - intros m Hm. inversion Hm; subst m. split; [by apply Hmw|].
    destruct (Hv eq_refl) as (mo & Hmo & Hsat). exists mo.
    split; [done|]. by rewrite Hsat, (Huw eq_refl).
Qed.

Lemma incumbent_inv_reachable goal endTime (p : pRRT) (g : World) :
  planner_ok p -> reachable goal endTime p g ->
  incumbent_inv goal (length (m_nn p)) g.
Proof.
  intros Hok. revert g. apply reachable_ind.
  - apply incumbent_inv_launch.
  - intros g t g' Hreach Hinv Hstep.
    eapply incumbent_inv_step; [|done|done].
    by eapply tree_inv_reachable.
Qed.

Lemma walk_nonempty (fuel : nat) (nn : list Motion) (j : nat)
    (mpath : list Motion) :
  walk fuel nn (Some j) = Some mpath -> mpath <> [].
Proof.
  destruct fuel as [|fuel]; [done|]. simpl.
  destruct (nn !! j) as [mo|]; [|done].
  destruct (walk fuel nn (parent mo)); [|done].
  intros H. by inversion H.
Qed.

(** X5.  A path that [solve] hands to the goal is marked approximate
    exactly when its last state does not satisfy the goal: the last state of
    an exact path satisfies it, the last state of an approximate path does
    not. *)
Theorem reported_path_reaches_goal goal (p p' : pRRT) (solveTime now0 : Q)
    (sched : list Tick) (b : bool) (path : list State) (approx : bool) :
  planner_ok p ->
  getGoal m_pdef = Some goal ->
  solve p solveTime now0 sched = Some (p', b) ->
  SetSolutionPath path approx ∈ drop (length (events p)) (events p') ->
  exists s, last path = Some s /\ (isSatisfied goal s).1 = negb approx.
Proof.
  intros Hok Hgoal Hsolve Hin.
  destruct (reported_path_inv _ _ _ _ _ _ _ _ _ Hok Hgoal Hsolve Hin)
    as (g & m & mo & mpath & Hrun & _ & Hm & -> & Hmo & _ & -> & _).
  assert (Hinc : incumbent_inv goal
            (length (m_nn (emit (seed (emit p [TimeNow]))
               [MsgInform "Starting with %u states"
                  (length (m_nn (seed (emit p [TimeNow]))))]))) g).
  { eapply incumbent_inv_reachable; [|by exists sched].
    by apply (seed_planner_ok (emit p [TimeNow])). }
  exists (state mo). split; [by rewrite last_path_of|].
  unfold final_solution in Hm.
  destruct (solution (sol g)) as [m'|] eqn:Hsol.
  - inversion Hm; subst m'. rewrite bool_decide_eq_false_2 by done.
    destruct (inc_solution _ _ _ Hinc m Hsol) as (_ & mo' & Hmo' & Hsat).
    rewrite Hmo in Hmo'. by inversion Hmo'; subst.
  - rewrite bool_decide_eq_true_2 by done.
    destruct (inc_approxsol _ _ _ Hinc m Hm) as (_ & mo' & Hmo' & Hsat).
    rewrite Hmo in Hmo'. by inversion Hmo'; subst.
Qed.

(** X7.  The start nodes are never taken as solution: the solution node of
    a path that [solve] hands to the goal is a node that a worker added
    during the call, so the path holds at least two states, even when a
    start state satisfies the goal. *)
Theorem reported_path_has_a_motion goal (p p' : pRRT) (solveTime now0 : Q)
    (sched : list Tick) (b : bool) (path : list State) (approx : bool) :
  planner_ok p ->
  getGoal m_pdef = Some goal ->
  solve p solveTime now0 sched = Some (p', b) ->
  SetSolutionPath path approx ∈ drop (length (events p)) (events p') ->
  2 <= length path.
Proof.
  intros Hok Hgoal Hsolve Hin.
  destruct (reported_path_inv _ _ _ _ _ _ _ _ _ Hok Hgoal Hsolve Hin)
    as (g & m & mo & mpath & Hrun & _ & Hm & _ & Hmo & Hwalk & -> & _).
  assert (Hinc : incumbent_inv goal
            (length (m_nn (emit (seed (emit p [TimeNow]))
               [MsgInform "Starting with %u states"
                  (length (m_nn (seed (emit p [TimeNow]))))]))) g).
  { eapply incumbent_inv_reachable; [|by exists sched].
    by apply (seed_planner_ok (emit p [TimeNow])). }
  assert (Hle : length (m_nn (emit (seed (emit p [TimeNow]))
               [MsgInform "Starting with %u states"
                  (length (m_nn (seed (emit p [TimeNow]))))])) <= m).
  { unfold final_solution in Hm.
    destruct (solution (sol g)) as [m'|] eqn:Hsol.
    - inversion Hm; subst m'. by apply (inc_solution _ _ _ Hinc).
    - by apply (inc_approxsol _ _ _ Hinc). }
  pose proof (inc_parent _ _ _ Hinc m mo Hle Hmo) as Hpar.
  unfold path_of. rewrite length_fmap, length_reverse.
  destruct (length (m_nn (self g))) as [|fuel]; [done|].
  simpl in Hwalk. rewrite Hmo in Hwalk.
  destruct (parent mo) as [j|]; [|done].
  destruct (walk fuel (m_nn (self g)) (Some j)) as [rest|] eqn:Hrest; [|done].
  inversion Hwalk; subst mpath.
  apply walk_nonempty in Hrest. destruct rest; [done|]. simpl. lia.
Qed.


(** ** The approximate solution *)

Lemma exact_begun_step goal endTime (t : Tick) (g g' : World) :
  exact_begun g -> step goal endTime t g = Some g' -> exact_begun g'.
Proof.
  intros Hb Hstep.
  apply step_inv in Hstep as (w & p' & s' & w' & Hw & Hts & ->).
  assert (Hlen : tid t < length (workers g)) by (by eapply lookup_lt_Some).
  assert (Hsol : solution s' = solution (sol g) \/
                 (pc w = ExactSetSol /\ solution s' <> None)).
  { unfold threadSolve_step in Hts.
    destruct (pc w) eqn:Hpc; repeat case_match; simplify_eq; simpl; auto. }
  destruct Hb as [Hb | (i & wi & Hwi & Hpci)].
  - left. simpl. destruct Hsol as [-> | [_ Hs]]; done.
  - destruct (decide (i = tid t)) as [->|Hne].
    + rewrite Hw in Hwi. inversion Hwi; subst wi.
      left. simpl. unfold threadSolve_step in Hts. rewrite Hpci in Hts.
      by inversion Hts.
    + right. exists i, wi. simpl.
      by rewrite list_lookup_insert_ne.
Qed.

(** A statement that changes neither the tree nor the stored distance. *)
Lemma nodes_frame goal (n0 : nat) (g : World) (t : Tick) (w w' : Worker)
    (p' : pRRT) (s' : SolutionInfo) :
  workers g !! tid t = Some w ->
  m_nn p' = m_nn (self g) -> approxdif s' = approxdif (sol g) ->
  motion w' = motion w ->
  (in_flight (pc w) = true ->
   in_flight (pc w') = true \/
   forall mo, m_nn (self g) !! motion w = Some mo -> settled goal g mo) ->
  (forall k mo, n0 <= k -> m_nn (self g) !! k = Some mo ->
                pending g k \/ settled goal g mo) ->
  forall k mo, n0 <= k -> m_nn p' !! k = Some mo ->
    pending {| self := p'; sol := s';
               workers := <[tid t := w']> (workers g) |} k \/
    settled goal {| self := p'; sol := s';
                    workers := <[tid t := w']> (workers g) |} mo.
Proof.
  intros Hw Hnn Hdif Hmotion Hflight Hnodes k mo Hk Hlook.
  assert (Hlen : tid t < length (workers g)) by (by eapply lookup_lt_Some).
  rewrite Hnn in Hlook.
  assert (Hset : settled goal g mo ->
                 settled goal {| self := p'; sol := s';
                     workers := <[tid t := w']> (workers g) |} mo).
  { unfold settled. simpl. by rewrite Hdif. }
  destruct (Hnodes k mo Hk Hlook) as [(i & wi & Hwi & Hmi & Hfi) | Hs];
    [|by right; apply Hset].
  destruct (decide (i = tid t)) as [->|Hne].
  - rewrite Hw in Hwi. inversion Hwi; subst wi.
    destruct (Hflight Hfi) as [Hf' | Hs].
    + left. exists (tid t), w'. simpl.
      rewrite list_lookup_insert_eq by done. repeat split; congruence.
    + right. apply Hset, Hs. by rewrite Hmi.
  - left. exists i, wi. simpl. by rewrite list_lookup_insert_ne.
Qed.

Lemma approx_frame goal (g : World) (t : Tick) (w w' : Worker)
    (p' : pRRT) (s' : SolutionInfo) :
  workers g !! tid t = Some w -> pc w <> ApproxSetSol ->
  (exists l, m_nn p' = m_nn (self g) ++ l) ->
  approxdif s' = approxdif (sol g) -> approxsol s' = approxsol (sol g) ->
  approx_inv goal g ->
  approx_inv goal {| self := p'; sol := s';
                     workers := <[tid t := w']> (workers g) |}.
Proof.
  intros Hw Hpc [l Hnn] Hdif Happ [(i & wi & Hwi & Hpci) | Hright].
  - left. exists i, wi. simpl. split; [|done].
    rewrite list_lookup_insert_ne; [done|]. intros <-.
    rewrite Hw in Hwi. by inversion Hwi; subst.
  - right. simpl. rewrite Hdif, Happ, Hnn.
    destruct (approxsol (sol g)) as [m|]; [|done].
    destruct Hright as (mo & Hmo & Heq). exists mo.
    split; [by apply lookup_app_l_Some | done].
Qed.

Lemma closest_inv_launch goal (p : pRRT) :
  closest_inv goal (length (m_nn p)) (launch p).
Proof.
  right. split.
  - intros k mo Hk Hlook. simpl in Hlook.
    apply lookup_lt_Some in Hlook. lia.
  - by right.
Qed.

Lemma closest_inv_step goal endTime (p0 : pRRT) (n0 : nat) (rng : list double)
    (t : Tick) (g g' : World) :
  sol_inv rng g -> tree_inv goal p0 g -> incumbent_inv goal n0 g ->
  closest_inv goal n0 g ->
  step goal endTime t g = Some g' -> closest_inv goal n0 g'.
Proof.
  intros Hsolinv Htree Hinc [Hb | [Hnodes Happrox]] Hstep;
    [left; by eapply exact_begun_step|].
  apply step_inv in Hstep as (w & p' & s' & w' & Hw & Hts & ->).
  assert (Hlen : tid t < length (workers g)) by (by eapply lookup_lt_Some).
  destruct (Hsolinv _ _ Hw) as [_ _ Hretested Hwritten].
  destruct (inv_refs _ _ _ _ _ Htree _ _ Hw) as [_ _ Hv _].
  pose proof (inc_unsolved _ _ _ Hinc _ _ Hw) as Huw.
  (* the node of the scheduled worker, once its comparison has failed *)
  assert (Hsettle : tested (pc w) = true -> on_approx_path (pc w) = true ->
            dlt (dist w) (approxdif (sol g)) = false ->
            forall mo, m_nn (self g) !! motion w = Some mo ->
                       settled goal g mo).
  { intros Ht Ha Hd mo Hmo. destruct (Hv Ht) as (mo' & Hmo' & Hsat).
    rewrite Hmo in Hmo'. inversion Hmo'; subst mo'.
    unfold settled. rewrite Hsat. simpl. split; [by apply Huw | done]. }
  unfold threadSolve_step in Hts.
  destruct (pc w) eqn:Hpc; repeat case_match; simplify_eq.
  all: try (right; split;
            [ eapply (nodes_frame goal n0 g t w); eauto;
              rewrite ?Hpc; simpl; intros; auto
            | eapply (approx_frame goal g t w); eauto;
              [ by rewrite Hpc | by exists [] ; rewrite app_nil_r ] ]; fail).
  - (* m_nn.add(motion) *)
    right. split.
    + intros k mo Hk Hlook. simpl in Hlook.
      destruct (decide (k < length (m_nn (self g)))) as [Hlt|Hge].
      * rewrite lookup_app_l in Hlook by done.
        destruct (Hnodes k mo Hk Hlook) as [(i & wi & Hwi & Hmi & Hfi) | Hs];
          [|by right].
        left. exists i, wi. simpl. split; [|done].
        rewrite list_lookup_insert_ne; [done|]. intros <-.
        rewrite Hw in Hwi. inversion Hwi; subst wi.
        rewrite Hpc in Hfi. discriminate.
      * left. exists (tid t), (goto (set_motion w (length (m_nn (self g))))
                                    AddUnlock).
        simpl. rewrite list_lookup_insert_eq by done.
        apply lookup_lt_Some in Hlook. rewrite length_app in Hlook.
        simpl in Hlook. split; [done|]. split; [simpl; lia | done].
    + eapply (approx_frame goal g t w);
        [exact Hw | by rewrite Hpc | by eexists | done | done | done].
  - (* sol->approxdif = dist, exact *)
    left. right. exists (tid t), (goto w ExactSetSol). simpl.
    by rewrite list_lookup_insert_eq.
  - (* sol->approxdif = dist, approximate *)
    right. split.
    + intros k mo Hk Hlook. simpl in Hlook. unfold settled. simpl.
      destruct (Hnodes k mo Hk Hlook) as [(i & wi & Hwi & Hmi & Hfi) | Hs].
      * destruct (decide (i = tid t)) as [->|Hne].
        -- rewrite Hw in Hwi. inversion Hwi; subst wi. right.
           destruct (Hv eq_refl) as (mo' & Hmo' & Hsat).
           rewrite <- Hmi, Hmo' in Hlook. inversion Hlook; subst mo'.
           rewrite Hsat. simpl. split; [by apply Huw | apply dlt_irrefl].
        -- left. exists i, wi. simpl. by rewrite list_lookup_insert_ne.
      * right. destruct Hs as [Hsat Hle]. split; [done|].
        destruct (dlt (isSatisfied goal (state mo)).2 (dist w)) eqn:Hcloser;
          [|done].
        by rewrite (dlt_trans _ _ _ Hcloser (Hretested eq_refl)) in Hle.
    + left. exists (tid t), (goto w ApproxSetSol). simpl.
      by rewrite list_lookup_insert_eq.
  - (* sol->approxsol = motion *)
    right. split.
    + eapply (nodes_frame goal n0 g t w); eauto.
      rewrite Hpc. by intros.
    + right. simpl. destruct (Hv eq_refl) as (mo & Hmo & Hsat).
      exists mo. split; [done|]. rewrite Hsat. simpl.
      apply Hwritten. by left.
Qed.

Lemma closest_inv_reachable goal endTime (p : pRRT) (g : World) :
  planner_ok p -> reachable goal endTime p g ->
  closest_inv goal (length (m_nn p)) g.
Proof.
  intros Hok. revert g. apply reachable_ind.
  - apply closest_inv_launch.
  - intros g t g' Hreach Hinv Hstep.
    eapply closest_inv_step; [| | |done|done].
    + by eapply sol_inv_reachable.
    + by eapply tree_inv_reachable.
    + by eapply incumbent_inv_reachable.
Qed.

(** X6.  When the workers have been joined and none has recorded an exact
    solution, no node that a worker added satisfies the goal, the goal
    distance of no such node is below the stored distance, and the stored
    distance is the goal distance of the stored approximate solution, which
    is one of those nodes: no node added during the call is closer to the
    goal than the approximate solution.  No approximate solution is stored
    only when the stored distance is still [+infinity], so that the goal
    distance of no added node is below [+infinity]. *)
Theorem approximate_solution_is_closest goal (p : pRRT) (solveTime now0 : Q)
    (sched : list Tick) (g : World) :
  planner_ok p ->
  getGoal m_pdef = Some goal ->
  let p1 := seed (emit p [TimeNow]) in
  let p2 := emit p1 [MsgInform "Starting with %u states"
                               (length (m_nn p1))] in
  run goal (now0 + solveTime)%Q sched (launch p2) = Some g ->
  forallb has_returned (workers g) = true ->
  solution (sol g) = None ->
  (forall k mo, length (m_nn p1) <= k -> m_nn (self g) !! k = Some mo ->
     (isSatisfied goal (state mo)).1 = false /\
     dlt (isSatisfied goal (state mo)).2 (approxdif (sol g)) = false) /\
  match approxsol (sol g) with
  | Some m =>
      length (m_nn p1) <= m /\
      exists mo, m_nn (self g) !! m = Some mo /\
                 approxdif (sol g) = (isSatisfied goal (state mo)).2
  | None =>
      approxdif (sol g) = dinf /\
      forall k mo, length (m_nn p1) <= k -> m_nn (self g) !! k = Some mo ->
                   dlt (isSatisfied goal (state mo)).2 dinf = false
  end.
Proof.
  intros Hok Hgoal p1 p2 Hrun Hret Hnone.
  assert (Hok2 : planner_ok p2)
    by (by apply (seed_planner_ok (emit p [TimeNow]))).
  assert (Hreach : reachable goal (now0 + solveTime)%Q p2 g)
    by (by exists sched).
  assert (Hall : forall i w, workers g !! i = Some w -> pc w = Returned).
  { intros i w Hw. apply list_elem_of_lookup_2 in Hw.
    rewrite forallb_forall in Hret. apply list_elem_of_In in Hw.
    specialize (Hret _ Hw). by apply bool_decide_eq_true in Hret. }
  pose proof (incumbent_inv_reachable _ _ _ _ Hok2 Hreach) as Hinc.
  destruct (closest_inv_reachable _ _ _ _ Hok2 Hreach)
    as [[Hb | (i & w & Hw & Hpc)] | [Hnodes Happrox]].
  { done. }
  { rewrite (Hall _ _ Hw) in Hpc. discriminate. }
  assert (Hsettled : forall k mo, length (m_nn p1) <= k ->
            m_nn (self g) !! k = Some mo -> settled goal g mo).
  { intros k mo Hk Hlook.
    destruct (Hnodes k mo Hk Hlook) as [(i & w & Hw & _ & Hf) | Hs]; [|done].
    rewrite (Hall _ _ Hw) in Hf. discriminate. }
  split; [exact Hsettled|].
  destruct Happrox as [(i & w & Hw & Hpc) | Hright].
  { rewrite (Hall _ _ Hw) in Hpc. discriminate. }
  destruct (approxsol (sol g)) as [m|] eqn:Happ.
  - split; [|done]. by apply (inc_approxsol _ _ _ Hinc).
  - split; [done|]. intros k mo Hk Hlook.
    destruct (Hsettled k mo Hk Hlook) as [_ Hle]. by rewrite Hright in Hle.
Qed.


(** ** An exhausted time budget *)

(** When the clock has reached the deadline, a statement can only make a
    worker leave the loop at its head. *)
Lemma late_step goal endTime (t : Tick) (g g' : World) :
  (endTime <= now t)%Q ->
  idle g -> solution (sol g) = None ->
  step goal endTime t g = Some g' ->
  self g' = self g /\ sol g' = sol g /\ idle g'.
Proof.
  intros Hlate Hidle Hnone Hstep.
  apply step_inv in Hstep as (w & p' & s' & w' & Hw & Hts & ->).
  assert (Hlen : tid t < length (workers g)) by (by eapply lookup_lt_Some).
  apply Qltb_ge in Hlate.
  unfold threadSolve_step in Hts.
  destruct (Hidle _ _ Hw) as [Hpc | Hpc]; rewrite Hpc, ?Hnone, ?Hlate in Hts;
    [|done].
  inversion Hts; subst. simpl. repeat split.
  intros i wi Hwi. simpl in Hwi. destruct (decide (i = tid t)) as [->|Hne].
  - rewrite list_lookup_insert_eq in Hwi by done.
    inversion Hwi; subst. by right.
  - rewrite list_lookup_insert_ne in Hwi by done. by eapply Hidle.
Qed.

Lemma late_run goal endTime (sched : list Tick) (g g' : World) :
  Forall (fun t => (endTime <= now t)%Q) sched ->
  idle g -> solution (sol g) = None ->
  run goal endTime sched g = Some g' ->
  self g' = self g /\ sol g' = sol g.
Proof.
  revert g. induction sched as [|t sched IH]; intros g Hlate Hidle Hnone Hrun;
    simpl in Hrun.
  - by inversion Hrun.
  - destruct (step goal endTime t g) as [g1|] eqn:Hstep; [|done].
    apply Forall_cons in Hlate as [Ht Hlate].
    destruct (late_step _ _ _ _ _ Ht Hidle Hnone Hstep) as (Hs & Hsol & Hi).
    destruct (IH g1 Hlate Hi) as [H1 H2]; [by rewrite Hsol | done |].
    split; congruence.
Qed.

(** X10.  When the clock has reached the deadline at every statement that
    the workers execute, as with a time budget that is not positive, [solve]
    adds no node beyond the accepted start states and reports nothing to the
    goal: it calls neither [setDifference] nor [setSolutionPath]. *)
Theorem exhausted_budget_reports_nothing goal (p p' : pRRT)
    (solveTime now0 : Q) (sched : list Tick) (b : bool) :
  getGoal m_pdef = Some goal ->
  Forall (fun t => (now0 + solveTime <= now t)%Q) sched ->
  solve p solveTime now0 sched = Some (p', b) ->
  m_nn p' = m_nn p ++ (start_motion <$> List.filter passes_checks
                                                    (pending_starts p)) /\
  Forall (fun e => reports_to_goal e = false)
         (drop (length (events p)) (events p')).
Proof.
  intros Hgoal Hlate Hsolve.
  destruct (seed_spec (emit p [TimeNow])) as (H1 & H2 & H3 & _).
  simpl in H1, H2.
  change (pending_starts (emit p [TimeNow])) with (pending_starts p)
    in H1, H2.
  assert (Herrs : forall l : list State,
            Forall (fun e => reports_to_goal e = false)
              ((fun _ => MsgError "Initial state is invalid!") <$> l)).
  { intros l. apply Forall_fmap. by apply Forall_true. }
  assert (Hstarts : forall l : list nat,
            Forall (fun e => reports_to_goal e = false) (ThreadStart <$> l)).
  { intros l. apply Forall_fmap. by apply Forall_true. }
  assert (Hjoins : forall l : list nat,
            Forall (fun e => reports_to_goal e = false) (ThreadJoin <$> l)).
  { intros l. apply Forall_fmap. by apply Forall_true. }
  destruct (solve_inv _ _ _ _ _ _ _ Hgoal Hsolve)
    as [(_ & _ & ->) | (_ & g & Hrun & _ & Hres & _)].
  - split; [done|]. simpl. rewrite H2, <- !app_assoc, drop_app_length.
    repeat (apply Forall_app; split); try done; by repeat constructor.
  - assert (Hidle : idle (launch (emit (seed (emit p [TimeNow]))
                       [MsgInform "Starting with %u states"
                          (length (m_nn (seed (emit p [TimeNow]))))]))).
    { intros i w Hw. apply lookup_replicate_1 in Hw as [-> _]. by left. }
    destruct (late_run _ _ _ _ _ Hlate Hidle eq_refl Hrun) as [Hself Hsol].
    destruct (resolve_inv _ _ Hres) as (Hnn & _ & Hev).
    rewrite Hsol in Hev. simpl in Hev.
    rewrite Hself in Hnn, Hev. simpl in Hnn, Hev.
    split; [by rewrite Hnn|].
    rewrite Hev, H2, <- !app_assoc, drop_app_length.
    repeat (apply Forall_app; split); try done; by repeat constructor.
Qed.

(** ** Blocked workers *)

Lemma live_inv_launch (p : pRRT) : m_nn p <> [] -> live_inv (launch p).
Proof.
  intros Hne. split; simpl; [done| |];
    intros i w Hw; by apply lookup_replicate_1 in Hw as [-> _].
Qed.

Lemma live_inv_step goal endTime (t : Tick) (g g' : World) :
  nearest_ok nearest ->
  live_inv g -> step goal endTime t g = Some g' -> live_inv g'.
Proof.
  intros Hnear [Htree Hn Hm] Hstep.
  apply step_inv in Hstep as (w & p' & s' & w' & Hw & Hts & ->).
  pose proof (Hn _ _ Hw) as Hnw. pose proof (Hm _ _ Hw) as Hmw.
  assert (Hlen : tid t < length (workers g)) by (by eapply lookup_lt_Some).
  unfold threadSolve_step in Hts.
  destruct (pc w) eqn:Hpc; repeat case_match; simplify_eq;
    split; simpl; try done.
  all: try (intros i wi Hwi;
            destruct (decide (i = tid t)) as [->|Hne];
            [ rewrite list_lookup_insert_eq in Hwi by done;
              inversion Hwi; subst wi; clear Hwi; simpl; try done
            | rewrite list_lookup_insert_ne in Hwi by done;
              try exact (Hn _ _ Hwi); try exact (Hm _ _ Hwi) ]).
  all: try (by auto).
  all: try (by intros _; apply Hnear).
  all: try (by intros _; rewrite length_app; simpl; lia).
  - by destruct (m_nn (self g)).
  - intros Hh. rewrite length_app. pose proof (Hn _ _ Hwi Hh). simpl. lia.
  - intros Hh. rewrite length_app. pose proof (Hm _ _ Hwi Hh). simpl. lia.
Qed.

Lemma live_inv_reachable goal endTime (p : pRRT) (g : World) :
  nearest_ok nearest -> m_nn p <> [] ->
  reachable goal endTime p g -> live_inv g.
Proof.
  intros Hnear Hne. revert g. apply reachable_ind.
  - by apply live_inv_launch.
  - intros g t g' _ Hinv Hstep. by eapply live_inv_step.
Qed.

(** The owner of a mutex is never blocked. *)
Lemma owner_runs goal endTime (g : World) (i : nat) (w : Worker) (t : Tick) :
  workers g !! i = Some w ->
  holds_nnLock (pc w) || holds_lock (pc w) = true ->
  tid t = i -> is_Some (step goal endTime t g).
Proof.
  intros Hw Hhold <-. unfold step, threadSolve_step. rewrite Hw.
  destruct (pc w); simpl in Hhold; try discriminate;
    repeat case_match; simplify_eq; eexists; reflexivity.
Qed.

(** X13.  The workers cannot deadlock.  When the nearest-neighbour query
    answers with a node of the tree, [m_nnLock] is free at the launch and the
    tree is not empty, a worker that has not returned can execute its next
    statement, unless that statement is a [lock()] on a mutex that another
    worker owns, and then that owner can execute its next statement: a
    worker is blocked only at [m_nnLock.lock()] or at [sol->lock.lock()]. *)
Theorem blocked_worker_waits_for_running_owner goal endTime (p : pRRT)
    (g : World) (i : nat) (w : Worker) :
  nearest_ok nearest -> m_nnLock p = None -> m_nn p <> [] ->
  reachable goal endTime p g ->
  workers g !! i = Some w -> pc w <> Returned ->
  (forall t, tid t = i -> is_Some (step goal endTime t g)) \/
  (exists j wj, j <> i /\ workers g !! j = Some wj /\
                ((locks_nn (pc w) = true /\ m_nnLock (self g) = Some j) \/
                 (locks_sol (pc w) = true /\ lock (sol g) = Some j)) /\
                forall t, tid t = j -> is_Some (step goal endTime t g)).
Proof.
  intros Hnear Hfree Hne Hreach Hw Hpc.
  pose proof (live_inv_reachable _ _ _ _ Hnear Hne Hreach) as [_ Hn Hm].
  pose proof (nn_inv_reachable _ _ _ _ Hfree Hreach) as [_ Hnn].
  pose proof (lock_inv_reachable _ _ _ _ Hreach) as Hlock.
  specialize (Hn _ _ Hw). specialize (Hm _ _ Hw).
  assert (Hnnowner : forall j, m_nnLock (self g) = Some j ->
            holds_nnLock (pc w) = false -> locks_nn (pc w) = true ->
            exists j wj, j <> i /\ workers g !! j = Some wj /\
              ((locks_nn (pc w) = true /\ m_nnLock (self g) = Some j) \/
               (locks_sol (pc w) = true /\ lock (sol g) = Some j)) /\
              forall t, tid t = j -> is_Some (step goal endTime t g)).
  { intros j Hj Hnot Hat. destruct (Hnn _ Hj) as (wj & Hwj & Hhold).
    exists j, wj. split; [|split; [done|split; [by left|]]].
    - intros ->. congruence.
    - intros t Ht. eapply owner_runs; [exact Hwj | by rewrite Hhold | done]. }
  assert (Hsolowner : forall j, lock (sol g) = Some j ->
            holds_lock (pc w) = false -> locks_sol (pc w) = true ->
            exists j wj, j <> i /\ workers g !! j = Some wj /\
              ((locks_nn (pc w) = true /\ m_nnLock (self g) = Some j) \/
               (locks_sol (pc w) = true /\ lock (sol g) = Some j)) /\
              forall t, tid t = j -> is_Some (step goal endTime t g)).
  { intros j Hj Hnot Hat. destruct (Hlock _ Hj) as (wj & Hwj & Hhold).
    exists j, wj. split; [|split; [done|split; [by right|]]].
    - intros ->. congruence.
    - intros t Ht. eapply owner_runs; [exact Hwj | | done].
      rewrite Hhold. apply orb_true_r. }
  assert (Hrun : (forall t, tid t = i ->
                    is_Some (threadSolve_step goal endTime t (self g)
                                              (sol g) w)) ->
                 forall t, tid t = i -> is_Some (step goal endTime t g)).
  { intros H t Ht. destruct (H t Ht) as [[[p' s'] w'] Hts].
    unfold step. rewrite Ht, Hw, Hts. by eexists. }
  destruct (pc w) eqn:Hpcw; try done.
  all: try (left; apply Hrun; intros t Ht; unfold threadSolve_step;
            rewrite Hpcw; repeat case_match; simplify_eq;
            eexists; reflexivity).
  - destruct (m_nnLock (self g)) as [j|] eqn:Hl.
    + right. by eapply Hnnowner.
    + left. apply Hrun. intros t Ht. unfold threadSolve_step.
      rewrite Hpcw, Hl. by eexists.
  - left. apply Hrun. intros t Ht. unfold threadSolve_step. rewrite Hpcw.
    destruct (lookup_lt_is_Some_2 _ _ (Hn eq_refl)) as [nm ->]. by eexists.
  - left. apply Hrun. intros t Ht. unfold threadSolve_step. rewrite Hpcw.
    destruct (lookup_lt_is_Some_2 _ _ (Hn eq_refl)) as [nm ->].
    case_match; eexists; reflexivity.
  - destruct (m_nnLock (self g)) as [j|] eqn:Hl.
    + right. by eapply Hnnowner.
    + left. apply Hrun. intros t Ht. unfold threadSolve_step.
      rewrite Hpcw, Hl. by eexists.
  - left. apply Hrun. intros t Ht. unfold threadSolve_step. rewrite Hpcw.
    destruct (lookup_lt_is_Some_2 _ _ (Hm eq_refl)) as [mo ->].
    case_match; eexists; reflexivity.
  - destruct (lock (sol g)) as [j|] eqn:Hl.
    + right. by eapply Hsolowner.
    + left. apply Hrun. intros t Ht. unfold threadSolve_step.
      rewrite Hpcw, Hl. by eexists.
  - destruct (lock (sol g)) as [j|] eqn:Hl.
    + right. by eapply Hsolowner.
    + left. apply Hrun. intros t Ht. unfold threadSolve_step.
      rewrite Hpcw, Hl. by eexists.
Qed.

(** ** Goal biasing *)

Lemma step_same_draws goal endTime (t t' : Tick) (g : World) :
  sampleable goal = false -> same_draws t t' ->
  step goal endTime t g = step goal endTime t' g.
Proof.
  intros Hs (Htid & Hnow & Hsample).
  unfold step, threadSolve_step.
  rewrite Htid, Hnow, Hsample, Hs. reflexivity.
Qed.

Lemma run_same_draws goal endTime (sched sched' : list Tick) (g : World) :
  sampleable goal = false -> Forall2 same_draws sched sched' ->
  run goal endTime sched g = run goal endTime sched' g.
Proof.
  intros Hs Hsame. revert g.
  induction Hsame as [|t t' sched sched' Ht _ IH]; intros g; [done|].
  simpl. rewrite (step_same_draws _ _ _ _ _ Hs Ht).
  destruct (step goal endTime t' g); [apply IH | done].
Qed.

(** X14.  Goal biasing needs a goal that can be sampled: when the goal is
    not a [GoalSampleableRegion], the result of [solve] depends neither on
    the random draws that are compared with [m_goalBias] nor on what the
    goal's sampler would give. *)
Theorem goal_bias_needs_sampleable_goal goal (p : pRRT) (solveTime now0 : Q)
    (sched sched' : list Tick) :
  getGoal m_pdef = Some goal -> sampleable goal = false ->
  Forall2 same_draws sched sched' ->
  solve p solveTime now0 sched = solve p solveTime now0 sched'.
Proof.
  intros Hgoal Hs Hsame. unfold solve. rewrite Hgoal.
  by rewrite (run_same_draws _ _ _ _ _ Hs Hsame).
Qed.

End PlannerFacts.

(** * The properties on the concrete planning problem *)

Import Scenario.

Local Open Scope Q_scope.

(** Splits a conjunction written out in the goal. *)
Ltac split_all := repeat match goal with |- _ /\ _ => split end.

Lemma reachable_world_after goal (n : nat) (sched : list Tick) :
  is_Some (run si rho goalBias nearest goal 1 sched (start goal n)) ->
  reachable si rho goalBias nearest goal 1 (seeded goal n)
            (world_after goal n sched).
Proof.
  intros [g Hg]. exists sched. unfold world_after.
  fold (start goal n). by rewrite Hg.
Qed.

(** ** The functions on small inputs *)

(** A candidate less than [8] away from the nearest node is reached. *)
Example steer_reaches_near_candidate :
  steer si rho (compute_range si rho) [dbl 6 0] [dbl 0 0] = [dbl 6 0].
Proof. vm_compute. reflexivity. Qed.

(** A candidate on the other side: the difference is negative. *)
Example steer_towards_smaller_coordinate :
  steer si rho (compute_range si rho) [dbl 2 0] [dbl 14 0] = [dbl 8 0].
Proof. vm_compute. reflexivity. Qed.

(** The range of a component is rounded: with [rho = 0.3] and the bounds
    [[1, 2]] the comparison is made with the double nearest to 3/10. *)
Example range_is_rounded :
  compute_range narrow three_tenths
    = [S754_finite false 5404319552844595 (-54)].
Proof. vm_compute. reflexivity. Qed.

(** A comparison with NaN is false, and [+infinity] is not below itself. *)
Example comparisons_with_nan_and_infinity :
  dlt S754_nan dinf = false /\ dlt dinf S754_nan = false /\
  dlt dinf dinf = false /\ dlt (dbl 2 0) dinf = true.
Proof. by repeat split. Qed.

(** At the deadline the worker leaves the loop from its head. *)
Example worker_returns_at_deadline :
  pc (worker_of (world_after ball 1 [tick_at 0 1]) 0) = Returned /\
  pc (worker_of (world_after ball 1 [tick_at 0 (1 # 2)]) 0) = SampleState.
Proof. split; vm_compute; reflexivity. Qed.

(** A worker that has returned executes nothing. *)
Example returned_worker_is_stuck :
  run si rho goalBias nearest ball 1 [tick_at 0 1; tick_at 0 1]
      (start ball 1) = None.
Proof. vm_compute. reflexivity. Qed.

(** A worker blocks on [sol->lock] while another one owns it. *)
Example lock_blocks_second_worker :
  pc (worker_of (world_after ball 2 contention) 1) = ExactLock /\
  pc (worker_of (world_after ball 2 contention) 0) = ExactSetDif /\
  lock (sol (world_after ball 2 contention)) = Some 0%nat /\
  step si rho goalBias nearest ball 1 (tick 1 (dbl 0 0))
       (world_after ball 2 contention) = None.
Proof. split_all; vm_compute; reflexivity. Qed.

(** [getStates] on a vector that is too long, and on an empty one. *)
Example getStates_shrinks_and_grows :
  getStates (outcome shell 1 two_iterations)
            [Some [dbl 9 0]; None; None; Some [dbl 7 0]; None]
    = [Some [dbl 0 0]; Some [dbl 6 0]; Some [dbl 8 0]] /\
  getStates (outcome shell 1 two_iterations) []
    = [Some [dbl 0 0]; Some [dbl 6 0]; Some [dbl 8 0]].
Proof. split; vm_compute; reflexivity. Qed.

(** ** Witnesses and counterexamples *)

(** The worker has sampled [12] and found the node [0] nearest: the steered
    coordinate is [0 + (12 - 0) * 1/2]. *)
Lemma steer_step_coordinates_witness :
  exists nm,
    m_nn (self (world_after shell 1 to_steer))
      !! nmotion (worker_of (world_after shell 1 to_steer) 0) = Some nm /\
    forall i, (i < dim si)%nat ->
      let c := getStateComponent si i in
      let diff :=
        dsub (value (rstate (worker_of (world_after shell 1 to_steer) 0)) i)
             (value (state nm) i) in
      value (xstate (worker_of (world_after shell 1 to_check) 0)) i
      = if dlt (dabs diff) (dmul rho (dsub (maxValue c) (minValue c)))
        then value (rstate (worker_of (world_after shell 1 to_steer) 0)) i
        else dadd (value (state nm) i) (dmul diff rho).
Proof.
  apply (steer_step_coordinates si rho goalBias nearest shell 1
           (seeded shell 1) (tick 0 (dbl 12 0))
           (world_after shell 1 to_steer)
           (world_after shell 1 to_check)).
  - apply reachable_world_after. vm_compute. by eexists.
  - vm_compute. reflexivity.
  - vm_compute. reflexivity.
  - vm_compute. reflexivity.
  - vm_compute. reflexivity.
Defined.

(** C1, the claim as stated fails: in the iteration above the candidate
    [12] is not within [rho * range = 8] of the nearest node [0], and the
    steered coordinate is [6], not [0 + 8].  All the values are doubles and
    no operation rounds. *)
Lemma steer_moves_by_fraction_of_difference :
  pc (worker_of (world_after shell 1 to_check) 0) = CheckMotion /\
  rstate (worker_of (world_after shell 1 to_check) 0) = [dbl 12 0] /\
  m_nn (self (world_after shell 1 to_check))
    !! nmotion (worker_of (world_after shell 1 to_check) 0)
    = Some {| state := [dbl 0 0]; parent := None |} /\
  dmul rho (dsub (dbl 16 0) (dbl 0 0)) = dbl 8 0 /\
  dlt (dbl 8 0) (dabs (dsub (dbl 12 0) (dbl 0 0))) = true /\
  value (xstate (worker_of (world_after shell 1 to_check) 0)) 0%nat
    = dbl 6 0 /\
  value (xstate (worker_of (world_after shell 1 to_check) 0)) 0%nat
    <> dadd (dbl 0 0) (dbl 8 0) /\
  d2Q (dbl 6 0) == 6 /\ d2Q (dadd (dbl 0 0) (dbl 8 0)) == 8.
Proof.
  split_all; try (vm_compute; reflexivity).
  vm_compute. discriminate.
Qed.



(** An iteration that records an approximate solution writes a distance
    below [+infinity]. *)
Lemma approxdif_non_increasing_witness :
  ele (approxdif (sol (world_after shell 1 approx_iteration)))
      (approxdif (sol (start shell 1))).
Proof.
  refine (proj1 (approxdif_non_increasing si rho goalBias nearest shell 1
                   (seeded shell 1) approx_iteration (start shell 1)
                   (world_after shell 1 approx_iteration) _ _ _)).
  - apply (reachable_world_after shell 1 []). by eexists.
  - vm_compute. reflexivity.
  - vm_compute. repeat constructor.
Defined.

(** C2, the claim as stated fails: with two workers and the goal [ball],
    worker 0 records the exact solution [4] at distance [0]; worker 1, which
    had passed the loop head before, then records the exact solution [7/2]
    and replaces the stored distance [0] by [1/2]. *)
Lemma exact_write_raises_approxdif :
  run si rho goalBias nearest ball 1 race (start ball 2)
    = Some (world_after ball 2 race) /\
  step si rho goalBias nearest ball 1 (tick 1 (dbl 0 0))
       (world_after ball 2 race)
    = Some (world_after ball 2 (race ++ [tick 1 (dbl 0 0)])) /\
  pc (worker_of (world_after ball 2 race) 1) = ExactSetDif /\
  approxdif (sol (world_after ball 2 race)) = dbl 0 0 /\
  approxdif (sol (world_after ball 2 (race ++ [tick 1 (dbl 0 0)])))
    = dbl 1 (-1) /\
  elt (approxdif (sol (world_after ball 2 race)))
      (approxdif (sol (world_after ball 2 (race ++ [tick 1 (dbl 0 0)])))) /\
  solve si (problem ball) rho goalBias nearest (fresh 2) 1 0
        (race ++ replicate 3%nat (tick 1 (dbl 0 0)))
    = Some (outcome ball 2 (race ++ replicate 3%nat (tick 1 (dbl 0 0))), true).
Proof.
  split_all; vm_compute; reflexivity.
Qed.

(** The worker has compared [dist = 2] with [+infinity] twice, the second
    time as owner of the lock, and overwrites the distance. *)
Lemma approx_update_double_checked_witness :
  lock (sol (world_after shell 1 (replicate 14%nat (tick 0 (dbl 6 0)))))
    = Some 0%nat /\
  dlt (dist (worker_of
               (world_after shell 1 (replicate 14%nat (tick 0 (dbl 6 0)))) 0))
      (approxdif
         (sol (world_after shell 1 (replicate 14%nat (tick 0 (dbl 6 0))))))
    = true /\
  sol (world_after shell 1 (replicate 15%nat (tick 0 (dbl 6 0))))
    = set_approxdif
        (sol (world_after shell 1 (replicate 14%nat (tick 0 (dbl 6 0)))))
        (dist (worker_of
                 (world_after shell 1 (replicate 14%nat (tick 0 (dbl 6 0))))
                 0)) /\
  pc (worker_of (world_after shell 1 (replicate 15%nat (tick 0 (dbl 6 0))))
                0)
    = ApproxSetSol.
Proof.
  destruct (approx_update_double_checked si rho goalBias nearest shell 1
              (seeded shell 1) (tick 0 (dbl 6 0))
              (world_after shell 1 (replicate 14%nat (tick 0 (dbl 6 0))))
              (world_after shell 1 (replicate 15%nat (tick 0 (dbl 6 0))))
              (worker_of
                 (world_after shell 1 (replicate 14%nat (tick 0 (dbl 6 0))))
                 0)
              (worker_of
                 (world_after shell 1 (replicate 15%nat (tick 0 (dbl 6 0))))
                 0))
    as (_ & _ & _ & H & _).
  - apply reachable_world_after. vm_compute. by eexists.
  - vm_compute. reflexivity.
  - vm_compute. reflexivity.
  - vm_compute. reflexivity.
  - apply H. vm_compute. reflexivity.
Defined.




(** No goal: one error, nothing else. *)
Lemma solve_without_goal_witness :
  exists p',
    solve si (pdef None [[dbl 0 0]]) rho goalBias nearest (fresh 2) 1 0 []
      = Some (p', false) /\
    events p' = events (fresh 2) ++ [MsgError "Goal undefined"] /\
    m_nn p' = m_nn (fresh 2) /\
    m_addedStartStates p' = m_addedStartStates (fresh 2).
Proof.
  apply (solve_without_goal si (pdef None [[dbl 0 0]]) rho goalBias nearest
           (fresh 2) 1 0 []).
  reflexivity.
Defined.

(** One worker, goal [shell]: the approximate distance [2] is recorded,
    then the exact solution at distance [4], which is the last write; [4]
    is handed to the goal and is the goal distance of the recorded
    solution. *)
Lemma exact_write_and_reported_distance_witness :
  last (dif_writes si rho goalBias nearest shell (0 + 1) two_iterations
                   (start shell 1))
    = Some (ExactWrite 0 (dbl 4 0)) /\
  SetDifference (dbl 4 0)
    ∈ drop (length (events (fresh 1)))
           (events (outcome shell 1 two_iterations)) /\
  exists m mo,
    solution (sol (world_after shell 1 two_iterations)) = Some m /\
    m_nn (self (world_after shell 1 two_iterations)) !! m = Some mo /\
    isSatisfied shell (state mo) = (true, dbl 4 0).
Proof.
  assert (Hlast : last (dif_writes si rho goalBias nearest shell (0 + 1)
                                   two_iterations (start shell 1))
                  = Some (ExactWrite 0 (dbl 4 0)))
    by (vm_compute; reflexivity).
  split; [exact Hlast|].
  destruct (exact_write_and_reported_distance si (problem shell) rho goalBias
              nearest shell (fresh 1) 1 0 two_iterations
              (world_after shell 1 two_iterations))
    as (p' & Hsolve & _ & _ & _ & H & _).
  - by apply planner_ok_empty.
  - reflexivity.
  - vm_compute. discriminate.
  - vm_compute. reflexivity.
  - vm_compute. reflexivity.
  - assert (Hp' : p' = outcome shell 1 two_iterations)
      by (unfold outcome; by rewrite Hsolve).
    rewrite <- Hp'. exact (H 0%nat (dbl 4 0) Hlast).
Defined.

(** C9, the claim as stated fails: with two workers and the goal [shell],
    worker 0 records the exact solution [8], whose goal distance is [4];
    worker 1, which had added the node [6] at distance [2] before, then
    commits its approximate update.  The exact solution is reported, with
    the distance [2]. *)
Lemma approximate_update_after_exact_write :
  solve si (problem shell) rho goalBias nearest (fresh 2) 1 0 overtaking
    = Some (outcome shell 2 overtaking, true) /\
  events (outcome shell 2 overtaking)
    = [TimeNow; MsgInform "Starting with %u states" 1; ThreadStart 0;
       ThreadStart 1; ThreadJoin 0; ThreadJoin 1; SetDifference (dbl 2 0);
       SetSolutionPath [[dbl 0 0]; [dbl 6 0]; [dbl 8 0]] false;
       MsgInform "Created %u states" 3] /\
  dif_writes si rho goalBias nearest shell 1 overtaking (start shell 2)
    = [ExactWrite 0 (dbl 4 0); ApproxWrite 1 (dbl 2 0)] /\
  solution (sol (world_after shell 2 overtaking)) = Some 2%nat /\
  m_nn (self (world_after shell 2 overtaking)) !! 2%nat
    = Some {| state := [dbl 8 0]; parent := Some 1%nat |} /\
  isSatisfied shell [dbl 8 0] = (true, dbl 4 0) /\
  dbl 2 0 <> dbl 4 0 /\ dlt (dbl 2 0) (dbl 4 0) = true.
Proof.
  split_all; try (vm_compute; reflexivity).
  vm_compute. discriminate.
Qed.

(** ** Witnesses of the further properties *)

(** Worker 0 owns [sol->lock] while worker 1 waits for it. *)
Lemma sol_lock_mutual_exclusion_witness :
  lock (sol (world_after ball 2 contention)) = Some 0%nat /\
  holds_lock (pc (worker_of (world_after ball 2 contention) 0)) = true /\
  holds_lock (pc (worker_of (world_after ball 2 contention) 1)) = false /\
  0%nat = 0%nat.
Proof.
  split; [vm_compute; reflexivity|].
  split; [vm_compute; reflexivity|].
  split; [vm_compute; reflexivity|].
  apply (sol_lock_mutual_exclusion si rho goalBias nearest ball 1
           (seeded ball 2) (world_after ball 2 contention) 0%nat 0%nat
           (worker_of (world_after ball 2 contention) 0)
           (worker_of (world_after ball 2 contention) 0)).
  - apply reachable_world_after. vm_compute. by eexists.
  - vm_compute. reflexivity.
  - vm_compute. reflexivity.
  - vm_compute. reflexivity.
  - vm_compute. reflexivity.
Defined.

(** The worker owns [m_nnLock] while it queries the tree. *)
Lemma nn_lock_mutual_exclusion_witness :
  m_nnLock (self (world_after shell 1 (replicate 3%nat (tick 0 (dbl 6 0)))))
    = Some 0%nat /\
  pc (worker_of (world_after shell 1 (replicate 3%nat (tick 0 (dbl 6 0)))) 0)
    = NearestQuery /\
  0%nat = 0%nat.
Proof.
  split; [vm_compute; reflexivity|].
  split; [vm_compute; reflexivity|].
  apply (nn_lock_mutual_exclusion si rho goalBias nearest shell 1
           (seeded shell 1)
           (world_after shell 1 (replicate 3%nat (tick 0 (dbl 6 0)))) 0%nat 0%nat
           (worker_of (world_after shell 1 (replicate 3%nat (tick 0 (dbl 6 0)))) 0)
           (worker_of (world_after shell 1 (replicate 3%nat (tick 0 (dbl 6 0)))) 0)).
  - vm_compute. reflexivity.
  - apply reachable_world_after. vm_compute. by eexists.
  - vm_compute. reflexivity.
  - vm_compute. reflexivity.
  - vm_compute. reflexivity.
  - vm_compute. reflexivity.
Defined.

(** Both workers have returned: neither mutex is owned. *)
Lemma locks_free_after_join_witness :
  lock (sol (world_after shell 2 overtaking)) = None /\
  m_nnLock (self (world_after shell 2 overtaking)) = None.
Proof.
  apply (locks_free_after_join si rho goalBias nearest shell 1
           (seeded shell 2) (world_after shell 2 overtaking)).
  - vm_compute. reflexivity.
  - apply reachable_world_after. vm_compute. by eexists.
  - vm_compute. reflexivity.
Defined.

(** Two threads on a planner that had one: the first place of the vector
    is kept and a second one is made. *)
Lemma setThreadCount_bounds_thread_ids_witness :
  exists p' cores',
    setThreadCount 0%nat 2 (fresh 1) [7%nat] = Some (p', cores') /\
    m_threadCount p' = 2%nat /\
    m_nn p' = m_nn (fresh 1) /\
    m_addedStartStates p' = m_addedStartStates (fresh 1) /\
    length cores' = 2%nat /\
    (forall i, (i < 2)%nat -> (i < length [7%nat])%nat ->
               cores' !! i = [7%nat] !! i) /\
    forall goal endTime sched t g g',
      run si rho goalBias nearest goal endTime sched (launch si rho p')
        = Some g ->
      step si rho goalBias nearest goal endTime t g = Some g' ->
      (tid t < length cores')%nat.
Proof.
  apply (setThreadCount_bounds_thread_ids si rho goalBias nearest nat 0%nat
           2 (fresh 1) [7%nat]).
  lia.
Defined.

(** After the call no start state is pending. *)
Lemma start_states_seeded_once_witness :
  (getStartStateCount (problem shell)
   <= m_addedStartStates (outcome shell 1 two_iterations))%nat
  /\
  pending_starts (problem shell)
                 (outcome shell 1 two_iterations) = [] /\
  forall evs,
    seed si (problem shell)
         (emit (outcome shell 1 two_iterations) evs)
    = emit (outcome shell 1 two_iterations) evs.
Proof.
  apply (start_states_seeded_once si (problem shell) rho goalBias nearest
           shell (fresh 1)
           (outcome shell 1 two_iterations) 1 0
           two_iterations true).
  - reflexivity.
  - vm_compute. reflexivity.
Defined.

Lemma edges_ok_fresh (n : nat) : edges_ok si (m_nn (fresh n)).
Proof. intros i mo j Hi. done. Qed.

(** The reported path [0, 6, 8] consists of checked motions. *)
Lemma reported_path_motions_valid_witness :
  chain_ok si [[dbl 0 0]; [dbl 6 0]; [dbl 8 0]].
Proof.
  apply (reported_path_motions_valid si (problem shell) rho goalBias nearest
           shell (fresh 1)
           (outcome shell 1 two_iterations) 1 0
           two_iterations true [[dbl 0 0]; [dbl 6 0]; [dbl 8 0]] false).
  - by apply planner_ok_empty.
  - apply edges_ok_fresh.
  - reflexivity.
  - vm_compute. reflexivity.
  - vm_compute. repeat constructor.
Defined.

(** The planner that the call returns can be handed to [solve] again. *)
Lemma solve_keeps_planner_well_formed_witness :
  planner_ok si (problem shell)
             (outcome shell 1 two_iterations) /\
  edges_ok si (m_nn (outcome shell 1 two_iterations)) /\
  m_nnLock (outcome shell 1 two_iterations) = None.
Proof.
  apply (solve_keeps_planner_well_formed si (problem shell) rho goalBias
           nearest (fresh 1)
           (outcome shell 1 two_iterations) 1 0
           two_iterations true).
  - by apply planner_ok_empty.
  - apply edges_ok_fresh.
  - reflexivity.
  - vm_compute. reflexivity.
Defined.

(** The exact path ends in [8], which satisfies [shell]. *)
Lemma reported_path_reaches_goal_witness :
  exists s, last [[dbl 0 0]; [dbl 6 0]; [dbl 8 0]] = Some s /\
            (isSatisfied shell s).1 = negb false.
Proof.
  apply (reported_path_reaches_goal si (problem shell) rho goalBias nearest
           shell (fresh 1)
           (outcome shell 1 two_iterations) 1 0
           two_iterations true [[dbl 0 0]; [dbl 6 0]; [dbl 8 0]] false).
  - by apply planner_ok_empty.
  - reflexivity.
  - vm_compute. reflexivity.
  - vm_compute. repeat constructor.
Defined.

(** The approximate path of a run that stops after one iteration has two
    states. *)
Lemma reported_path_has_a_motion_witness :
  (2 <= length [[dbl 0 0]; [dbl 6 0]])%nat.
Proof.
  apply (reported_path_has_a_motion si (problem shell) rho goalBias nearest
           shell (fresh 1)
           (outcome shell 1 one_iteration) 1 0
           one_iteration false [[dbl 0 0]; [dbl 6 0]] true).
  - by apply planner_ok_empty.
  - reflexivity.
  - vm_compute. reflexivity.
  - vm_compute. repeat constructor.
Defined.

(** One iteration, then the deadline: the node [6] is the approximate
    solution, at distance [2]. *)
Lemma approximate_solution_is_closest_witness :
  (forall k mo,
     (length (m_nn (seed si (problem shell) (emit (fresh 1) [TimeNow])))
      <= k)%nat ->
     m_nn (self (world_after shell 1 one_iteration)) !! k = Some mo ->
     (isSatisfied shell (state mo)).1 = false /\
     dlt (isSatisfied shell (state mo)).2
         (approxdif (sol (world_after shell 1 one_iteration))) = false) /\
  match approxsol (sol (world_after shell 1 one_iteration)) with
  | Some m =>
      (length (m_nn (seed si (problem shell) (emit (fresh 1) [TimeNow])))
       <= m)%nat /\
      exists mo,
        m_nn (self (world_after shell 1 one_iteration)) !! m = Some mo /\
        approxdif (sol (world_after shell 1 one_iteration))
          = (isSatisfied shell (state mo)).2
  | None =>
      approxdif (sol (world_after shell 1 one_iteration)) = dinf /\
      forall k mo,
        (length (m_nn (seed si (problem shell) (emit (fresh 1) [TimeNow])))
         <= k)%nat ->
        m_nn (self (world_after shell 1 one_iteration)) !! k = Some mo ->
        dlt (isSatisfied shell (state mo)).2 dinf = false
  end.
Proof.
  apply (approximate_solution_is_closest si (problem shell) rho goalBias
           nearest shell (fresh 1) 1 0 one_iteration
           (world_after shell 1 one_iteration)).
  - by apply planner_ok_empty.
  - reflexivity.
  - vm_compute. reflexivity.
  - vm_compute. reflexivity.
  - vm_compute. reflexivity.
Defined.

(** The only statement runs at the deadline: the tree holds the start state
    and nothing is reported to the goal. *)
Lemma exhausted_budget_reports_nothing_witness :
  m_nn (outcome ball 1 [tick_at 0 1])
    = m_nn (fresh 1)
      ++ (start_motion <$> List.filter (passes_checks si)
                             (pending_starts (problem ball) (fresh 1))) /\
  Forall (fun e => reports_to_goal e = false)
         (drop (length (events (fresh 1)))
               (events (outcome ball 1 [tick_at 0 1]))).
Proof.
  apply (exhausted_budget_reports_nothing si (problem ball) rho goalBias
           nearest ball (fresh 1) (outcome ball 1 [tick_at 0 1]) 1 0
           [tick_at 0 1] false).
  - reflexivity.
  - repeat constructor. vm_compute. discriminate.
  - vm_compute. reflexivity.
Defined.

Lemma nearest_from_lt (nn : list Motion) (q : State) (i best : nat)
    (d : double) :
  (best < i)%nat -> (nearest_from nn q i best d < i + length nn)%nat.
Proof.
  revert i best d. induction nn as [|mo nn IH]; intros i best d Hlt; simpl.
  - lia.
  - destruct (dlt _ _).
    + specialize (IH (S i) i (sqdist (state mo) q)). lia.
    + specialize (IH (S i) best d). lia.
Qed.

Lemma nearest_ok_scan : nearest_ok nearest.
Proof.
  intros [|mo nn] q Hne; [done|]. simpl.
  pose proof (nearest_from_lt nn q 1 0 (sqdist (state mo) q)). lia.
Qed.

Lemma same_draws_biased (sched : list Tick) :
  Forall2 same_draws sched (biased <$> sched).
Proof. induction sched; constructor; [by repeat split | done]. Qed.

(** Worker 1 waits at [sol->lock.lock()]; worker 0, which owns the mutex,
    can go on. *)
Lemma blocked_worker_waits_for_running_owner_witness :
  step si rho goalBias nearest ball 1 (tick 1 (dbl 0 0))
       (world_after ball 2 contention) = None /\
  exists j wj,
    j <> 1%nat /\
    workers (world_after ball 2 contention) !! j = Some wj /\
    ((locks_nn (pc (worker_of (world_after ball 2 contention) 1)) = true /\
      m_nnLock (self (world_after ball 2 contention)) = Some j) \/
     (locks_sol (pc (worker_of (world_after ball 2 contention) 1)) = true /\
      lock (sol (world_after ball 2 contention)) = Some j)) /\
    forall t, tid t = j ->
      is_Some (step si rho goalBias nearest ball 1 t
                    (world_after ball 2 contention)).
Proof.
  assert (Hblocked : step si rho goalBias nearest ball 1 (tick 1 (dbl 0 0))
                          (world_after ball 2 contention) = None)
    by (vm_compute; reflexivity).
  split; [exact Hblocked|].
  destruct (blocked_worker_waits_for_running_owner si rho goalBias nearest
              ball 1 (seeded ball 2) (world_after ball 2 contention) 1%nat
              (worker_of (world_after ball 2 contention) 1))
    as [Hruns | Hwaits].
  - exact nearest_ok_scan.
  - vm_compute. reflexivity.
  - vm_compute. discriminate.
  - apply reachable_world_after. vm_compute. by eexists.
  - vm_compute. reflexivity.
  - vm_compute. discriminate.
  - destruct (Hruns (tick 1 (dbl 0 0)) eq_refl) as [g Hg].
    rewrite Hblocked in Hg. discriminate.
  - exact Hwaits.
Defined.

(** The goal [shell] cannot be sampled: draws below the goal bias change
    nothing. *)
Lemma goal_bias_needs_sampleable_goal_witness :
  solve si (problem shell) rho goalBias nearest (fresh 1) 1 0
        two_iterations
  = solve si (problem shell) rho goalBias nearest (fresh 1) 1 0
          (biased <$> approx_iteration ++ exact_iteration).
Proof.
  apply (goal_bias_needs_sampleable_goal si (problem shell) rho goalBias
           nearest shell (fresh 1) 1 0
           two_iterations
           (biased <$> approx_iteration ++ exact_iteration)).
  - reflexivity.
  - reflexivity.
  - apply same_draws_biased.
Defined.
